(** * The klogbuf ring buffer: a shallow embedding of the character device

    The kernel module keeps one byte ring ([klog_buffer]) of [buffer_size]
    bytes together with a write position ([buffer_head]) and the count of
    valid bytes ([buffer_available]).  Three entry points touch it:
    [klog_write] (the device's write), [klog_read] (the device's read) and
    [klog_proc_show] (the /proc dump).  The reader-writer semaphore only
    serialises the calls; the model is the sequential behaviour of one call
    run to completion.

    Numbers are [Z]; every [size_t] operation of the C code is written with
    its reduction modulo 2^64. *)

From Stdlib Require Import ZArith Lia.
From Stdlib Require Import Strings.Byte.
From stdpp Require Import base numbers list strings.

Local Open Scope Z_scope.

#[global] Instance byte_eq_dec : EqDecision byte := Byte.byte_eq_dec.

(** Byte sequences written as text. *)
Definition bytes (s : string) : list byte := String.list_byte_of_string s.

(** ** Machine integers *)

(** [size_t] on the 64-bit kernel: unsigned, wraps modulo 2^64. *)
Definition size_t (x : Z) : Z := x mod 2 ^ 64.

(** [loff_t] and [ssize_t]: signed 64-bit, two's complement. *)
Definition loff_t (x : Z) : Z := (x + 2 ^ 63) mod 2 ^ 64 - 2 ^ 63.
Definition ssize_t (x : Z) : Z := (x + 2 ^ 63) mod 2 ^ 64 - 2 ^ 63.

(** [int]: the type of the module parameter [buffer_size]. *)
Definition INT_MAX : Z := 2 ^ 31 - 1.

Definition EFAULT : Z := 14.
Definition ENOMEM : Z := 12.

(** ** Memory blocks *)

(** [memcpy (dst + d) (src + s) n] on blocks held as byte lists.  Inside
    both blocks this is the C function; a byte whose source or destination
    lies outside its block (undefined behaviour in C) is left alone. *)
Definition memcpy (dst : list byte) (d : Z) (src : list byte) (s n : Z)
  : list byte :=
  imap (fun i x =>
          if bool_decide (d <= Z.of_nat i < d + n)
          then default x (src !! Z.to_nat (s + (Z.of_nat i - d)))
          else x) dst.

(** [memset (dst + d) v n]. *)
Definition memset (dst : list byte) (d : Z) (v : byte) (n : Z) : list byte :=
  imap (fun i x => if bool_decide (d <= Z.of_nat i < d + n) then v else x) dst.

(** ** The user-space boundary

    A user buffer is the list of bytes that are mapped at the pointer the
    caller passed; whatever lies behind it is not accessible.  Both copy
    routines return the number of bytes they could NOT copy, as the kernel's
    do. *)

(** Bytes of a request of [n] bytes at offset [s] that are accessible. *)
Definition accessible (ubuf : list byte) (s n : Z) : Z :=
  Z.min n (Z.max 0 (Z.of_nat (length ubuf) - s)).

(** [copy_from_user (kdst + d) (ubuf + s) n]: copies what is accessible and
    pads the rest of the destination with zero bytes, which is what the
    kernel routine does when it hits an unmapped page.  The properties
    below that speak of a faulting write use only that the bytes outside
    the destination range are not touched. *)
Definition copy_from_user (kdst : list byte) (d : Z) (ubuf : list byte) (s n : Z)
  : Z * list byte :=
  let c := accessible ubuf s n in
  (n - c, memset (memcpy kdst d ubuf s c) (d + c) x00 (n - c)).

(** [copy_to_user (ubuf + d) (ksrc + s) n]. *)
Definition copy_to_user (ubuf : list byte) (d : Z) (ksrc : list byte) (s n : Z)
  : Z * list byte :=
  let c := accessible ubuf d n in
  (n - c, memcpy ubuf d ksrc s c).

(** ** The printed form of a block *)

(** What [seq_printf(m, "%s", p)] emits: the bytes before the first NUL. *)
Fixpoint c_string (l : list byte) : list byte :=
  match l with
  | [] => []
  | b :: l' => if Byte.eqb b x00 then [] else b :: c_string l'
  end.

(** ** The device state *)

Record klog : Type := Klog {
  klog_buffer : list byte;      (* static char *klog_buffer *)
  buffer_head : Z;              (* static size_t buffer_head *)
  buffer_available : Z          (* static size_t buffer_available *)
}.

(** What a read hands back: the return value, the caller's buffer and the
    caller's file position after the call. *)
Record read_result : Type := ReadResult {
  read_ret : Z;
  read_ubuf : list byte;
  read_fpos : Z
}.

(** The bytes a successful read delivered. *)
Definition read_bytes (r : read_result) : list byte :=
  take (Z.to_nat (read_ret r)) (read_ubuf r).

(** * The voting demonstration: shared data and its update

    [voting_system.c] keeps the election in one shared structure.
    [cast_vote] runs between [writer_enter] and [writer_exit]; the model is
    the body of one call run to completion. *)

Definition MAX_CANDIDATES : Z := 10.
Definition MAX_VOTERS : Z := 1000.

(** [int]: signed 32-bit; increments are written with the wrap the
    compiled code has. *)
Definition c_int (x : Z) : Z := (x + 2 ^ 31) mod 2 ^ 32 - 2 ^ 31.

(** The shared structure.  Its field [reader_count] belongs to the entry
    protocol and is kept in [rw_state] below. *)
Record VotingData : Type := MkVotingData {
  candidate_count : Z;
  candidate_names : list string;   (* char [MAX_CANDIDATES][MAX_NAME_LENGTH] *)
  votes : list Z;                  (* int [MAX_CANDIDATES] *)
  total_votes : Z;
  voted_ids : list Z;              (* int [MAX_VOTERS] *)
  voted_count : Z
}.

(** The line [cast_vote] prints; the log line says the same with a time
    stamp in front. *)
Inductive vote_message : Type :=
  | MsgAlreadyVoted (voter_id : Z)
  | MsgInvalidCandidate
  | MsgVoted (voter_id : Z) (name : string).

(** [cast_vote (voter_id, candidate_id)]. *)
Definition cast_vote (d : VotingData) (voter_id candidate_id : Z)
  : vote_message * VotingData :=
  if existsb (fun id => id =? voter_id)
             (take (Z.to_nat (voted_count d)) (voted_ids d))
  then (MsgAlreadyVoted voter_id, d)
  else if (candidate_id <? 0) || (candidate_id >=? candidate_count d)
  then (MsgInvalidCandidate, d)
  else
    let votes' :=
      alter (fun v => c_int (v + 1)) (Z.to_nat candidate_id) (votes d) in
    let total' := c_int (total_votes d + 1) in
    let name := default EmptyString (candidate_names d !! Z.to_nat candidate_id) in
    if voted_count d <? MAX_VOTERS then
      (MsgVoted voter_id name,
       MkVotingData (candidate_count d) (candidate_names d) votes' total'
                    (<[Z.to_nat (voted_count d) := voter_id]> (voted_ids d))
                    (c_int (voted_count d + 1)))
    else
      (MsgVoted voter_id name,
       MkVotingData (candidate_count d) (candidate_names d) votes' total'
                    (voted_ids d) (voted_count d)).

(** The structure after [initialize_resources] zeroed it and the set-up
    stored [n] candidates with their names. *)
Definition voting_init (n : Z) (names : list string) : VotingData :=
  MkVotingData n names (replicate (Z.to_nat MAX_CANDIDATES) 0) 0
               (replicate (Z.to_nat MAX_VOTERS) 0) 0.

(** Calls of [cast_vote] one after the other, as the writer lock orders
    them. *)
Definition cast_votes (d : VotingData) (calls : list (Z * Z)) : VotingData :=
  foldl (fun d c => snd (cast_vote d (fst c) (snd c))) d calls.

(** The lines the calls print, in order. *)
Fixpoint cast_vote_messages (d : VotingData) (calls : list (Z * Z))
  : list vote_message :=
  match calls with
  | [] => []
  | c :: calls' =>
      fst (cast_vote d (fst c) (snd c))
      :: cast_vote_messages (snd (cast_vote d (fst c) (snd c))) calls'
  end.

Definition is_voted (m : vote_message) : bool :=
  match m with
  | MsgVoted _ _ => true
  | _ => false
  end.

(** The voters on record. *)
Definition recorded (d : VotingData) : list Z :=
  take (Z.to_nat (voted_count d)) (voted_ids d).

(** Sum of the tallies. *)
Definition tally (d : VotingData) : Z := foldr Z.add 0 (votes d).

(** A structure the set-up and earlier votes can have produced. *)
Definition voting_inv (d : VotingData) : Prop :=
  0 ≤ candidate_count d ≤ MAX_CANDIDATES ∧
  Z.of_nat (length (votes d)) = MAX_CANDIDATES ∧
  Z.of_nat (length (voted_ids d)) = MAX_VOTERS ∧
  0 ≤ voted_count d ≤ MAX_VOTERS ∧
  NoDup (recorded d) ∧
  Forall (fun v => 0 ≤ v) (votes d) ∧
  tally d = total_votes d ∧
  voted_count d ≤ total_votes d ∧
  (voted_count d < MAX_VOTERS → total_votes d = voted_count d).

(** The table of voters has its size and the count points into it. *)
Definition table_ok (d : VotingData) : Prop :=
  Z.of_nat (length (voted_ids d)) = MAX_VOTERS ∧
  0 ≤ voted_count d ≤ MAX_VOTERS.

(** * The voting demonstration: the entry protocol

    [view_results] runs between [reader_enter] and [reader_exit],
    [cast_vote] between [writer_enter] and [writer_exit].  The threads (or
    processes) share the semaphores [wrt] and [read_count_sem], both
    created with the value 1, and the counter [reader_count].  One step of
    the model is one statement of one thread; which thread moves next is
    up to the scheduler. *)

(** Where a thread stands: the statement it executes next. *)
Inductive rw_pc : Type :=
  | Idle                 (* outside view_results and cast_vote *)
  | ReaderEnterWait      (* reader_enter: sem_wait(read_count_sem) *)
  | ReaderEnterCount     (* reader_enter: if (++reader_count == 1) *)
  | ReaderEnterWrt       (* reader_enter: sem_wait(wrt) *)
  | ReaderEnterPost      (* reader_enter: sem_post(read_count_sem) *)
  | ReaderInside         (* view_results: printing the counts *)
  | ReaderExitWait       (* reader_exit: sem_wait(read_count_sem) *)
  | ReaderExitCount      (* reader_exit: if (--reader_count == 0) *)
  | ReaderExitWrt        (* reader_exit: sem_post(wrt) *)
  | ReaderExitPost       (* reader_exit: sem_post(read_count_sem) *)
  | WriterEnterWait      (* writer_enter: sem_wait(wrt) *)
  | WriterInside         (* cast_vote: checking and storing the vote *)
  | WriterExitPost.      (* writer_exit: sem_post(wrt) *)

#[global] Instance rw_pc_eq_dec : EqDecision rw_pc.
Proof. solve_decision. Defined.

Record rw_state : Type := RwState {
  wrt : Z;               (* value of the semaphore wrt *)
  read_count_sem : Z;    (* value of the semaphore read_count_sem *)
  reader_count : Z;      (* voting_data->reader_count *)
  rw_threads : list rw_pc
}.

(** What an idle thread calls next. *)
Inductive rw_call : Type :=
  | ViewResults
  | CastVote.

(** Thread [i] executes its next statement; [None] when there is no such
    thread or it is blocked in [sem_wait]. *)
Definition rw_step (s : rw_state) (i : nat) (call : rw_call)
  : option rw_state :=
  match rw_threads s !! i with
  | None => None
  | Some pc =>
      let move pc' := <[i := pc']> (rw_threads s) in
      match pc with
      | Idle =>
          Some (RwState (wrt s) (read_count_sem s) (reader_count s)
                  (move match call with
                        | ViewResults => ReaderEnterWait
                        | CastVote => WriterEnterWait
                        end))
      | ReaderEnterWait =>
          if 0 <? read_count_sem s then
            Some (RwState (wrt s) (read_count_sem s - 1) (reader_count s)
                    (move ReaderEnterCount))
          else None
      | ReaderEnterCount =>
          let n := c_int (reader_count s + 1) in
          Some (RwState (wrt s) (read_count_sem s) n
                  (move (if n =? 1 then ReaderEnterWrt else ReaderEnterPost)))
      | ReaderEnterWrt =>
          if 0 <? wrt s then
            Some (RwState (wrt s - 1) (read_count_sem s) (reader_count s)
                    (move ReaderEnterPost))
          else None
      | ReaderEnterPost =>
          Some (RwState (wrt s) (read_count_sem s + 1) (reader_count s)
                  (move ReaderInside))
      | ReaderInside =>
          Some (RwState (wrt s) (read_count_sem s) (reader_count s)
                  (move ReaderExitWait))
      | ReaderExitWait =>
          if 0 <? read_count_sem s then
            Some (RwState (wrt s) (read_count_sem s - 1) (reader_count s)
                    (move ReaderExitCount))
          else None
      | ReaderExitCount =>
          let n := c_int (reader_count s - 1) in
          Some (RwState (wrt s) (read_count_sem s) n
                  (move (if n =? 0 then ReaderExitWrt else ReaderExitPost)))
      | ReaderExitWrt =>
          Some (RwState (wrt s + 1) (read_count_sem s) (reader_count s)
                  (move ReaderExitPost))
      | ReaderExitPost =>
          Some (RwState (wrt s) (read_count_sem s + 1) (reader_count s)
                  (move Idle))
      | WriterEnterWait =>
          if 0 <? wrt s then
            Some (RwState (wrt s - 1) (read_count_sem s) (reader_count s)
                    (move WriterInside))
          else None
      | WriterInside =>
          Some (RwState (wrt s) (read_count_sem s) (reader_count s)
                  (move WriterExitPost))
      | WriterExitPost =>
          Some (RwState (wrt s + 1) (read_count_sem s) (reader_count s)
                  (move Idle))
      end
  end.

(** A schedule: who is given the processor, turn after turn, and what an
    idle thread calls when it is its turn.  A thread that is blocked
    stays where it is. *)
Definition rw_run (s : rw_state) (schedule : list (nat * rw_call)) : rw_state :=
  foldl (fun s turn => default s (rw_step s (fst turn) (snd turn))) s schedule.

(** [n] threads, none of them inside yet, after [initialize_resources]. *)
Definition rw_init (n : nat) : rw_state :=
  RwState 1 1 0 (replicate n Idle).

(** How many threads a predicate on positions counts. *)
Definition rw_count (f : rw_pc → bool) (l : list rw_pc) : Z :=
  foldr (fun pc acc => (if f pc then 1 else 0) + acc) 0 l.

(** Holding [read_count_sem]. *)
Definition holds_read_count (pc : rw_pc) : bool :=
  match pc with
  | ReaderEnterCount | ReaderEnterWrt | ReaderEnterPost
  | ReaderExitCount | ReaderExitWrt | ReaderExitPost => true
  | _ => false
  end.

(** Between the increment and the decrement of [reader_count]. *)
Definition counted_reader (pc : rw_pc) : bool :=
  match pc with
  | ReaderEnterWrt | ReaderEnterPost | ReaderInside
  | ReaderExitWait | ReaderExitCount => true
  | _ => false
  end.

(** A writer holding [wrt]. *)
Definition holds_wrt (pc : rw_pc) : bool :=
  match pc with
  | WriterInside | WriterExitPost => true
  | _ => false
  end.

(** 1 when the readers, as a group, hold [wrt]. *)
Definition readers_hold_wrt (s : rw_state) : Z :=
  if 0 <? rw_count (fun pc => bool_decide (pc = ReaderExitWrt)) (rw_threads s)
  then 1
  else if 0 <? rw_count (fun pc => bool_decide (pc = ReaderEnterWrt))
                        (rw_threads s)
  then 0
  else if 0 <? reader_count s then 1 else 0.

Definition rw_inv (s : rw_state) : Prop :=
  Z.of_nat (length (rw_threads s)) < 2 ^ 31 - 1 ∧
  0 ≤ wrt s ∧ 0 ≤ read_count_sem s ∧
  read_count_sem s + rw_count holds_read_count (rw_threads s) = 1 ∧
  reader_count s = rw_count counted_reader (rw_threads s) ∧
  wrt s + rw_count holds_wrt (rw_threads s) + readers_hold_wrt s = 1 ∧
  (0 < rw_count (fun pc => bool_decide (pc = ReaderEnterWrt)) (rw_threads s) →
   reader_count s = 1) ∧
  (0 < rw_count (fun pc => bool_decide (pc = ReaderExitWrt)) (rw_threads s) →
   reader_count s = 0).

Section Klog.

(** The module parameter [buffer_size]. *)
Variable buffer_size : Z.

(** The state [klog_init] leaves behind when it succeeds: the buffer
    allocated and zeroed, head and count at their static initialisers. *)
Definition klog_init : klog :=
  Klog (replicate (Z.to_nat buffer_size) x00) 0 0.

(** [klog_read (buffer, len, offset)]. *)
Definition klog_read (st : klog) (ubuf : list byte) (len offset : Z)
  : read_result * klog :=
  if buffer_available st =? 0 then (ReadResult 0 ubuf offset, st)
  else
    let bytes_to_read := Z.min len (buffer_available st) in
    if size_t offset <? buffer_available st then
      let read_pos :=
        size_t (size_t (size_t (buffer_head st + size_t buffer_size)
                        - buffer_available st) + size_t offset)
        mod size_t buffer_size in
      if size_t (read_pos + bytes_to_read) >? size_t buffer_size then
        let contiguous_bytes := size_t (size_t buffer_size - read_pos) in
        let '(ret, ubuf1) :=
          copy_to_user ubuf 0 (klog_buffer st) read_pos contiguous_bytes in
        if negb (ret =? 0) then (ReadResult (- EFAULT) ubuf1 offset, st)
        else
          let '(ret, ubuf2) :=
            copy_to_user ubuf1 contiguous_bytes (klog_buffer st) 0
                         (size_t (bytes_to_read - contiguous_bytes)) in
          if negb (ret =? 0) then (ReadResult (- EFAULT) ubuf2 offset, st)
          else (ReadResult (ssize_t bytes_to_read) ubuf2
                           (loff_t (offset + bytes_to_read)), st)
      else
        let '(ret, ubuf1) :=
          copy_to_user ubuf 0 (klog_buffer st) read_pos bytes_to_read in
        if negb (ret =? 0) then (ReadResult (- EFAULT) ubuf1 offset, st)
        else (ReadResult (ssize_t bytes_to_read) ubuf1
                         (loff_t (offset + bytes_to_read)), st)
    else (ReadResult 0 ubuf offset, st).

(** What a write hands back: the return value and the caller's file
    position after the call. *)
Definition klog_write (st : klog) (ubuf : list byte) (len offset : Z)
  : (Z * Z) * klog :=
  let bytes_to_write := Z.min len (size_t buffer_size) in
  let fault kbuf :=
    ((- EFAULT, offset), Klog kbuf (buffer_head st) (buffer_available st)) in
  let update kbuf :=
    ((ssize_t bytes_to_write, loff_t (offset + bytes_to_write)),
     Klog kbuf
          (size_t (buffer_head st + bytes_to_write) mod size_t buffer_size)
          (Z.min (size_t (buffer_available st + bytes_to_write))
                 (size_t buffer_size))) in
  if size_t (buffer_head st + bytes_to_write) >? size_t buffer_size then
    let contiguous_bytes := size_t (size_t buffer_size - buffer_head st) in
    let '(ret, kbuf1) :=
      copy_from_user (klog_buffer st) (buffer_head st) ubuf 0 contiguous_bytes in
    if negb (ret =? 0) then fault kbuf1
    else
      let '(ret, kbuf2) :=
        copy_from_user kbuf1 0 ubuf contiguous_bytes
                       (size_t (bytes_to_write - contiguous_bytes)) in
      if negb (ret =? 0) then fault kbuf2 else update kbuf2
  else
    let '(ret, kbuf1) :=
      copy_from_user (klog_buffer st) (buffer_head st) ubuf 0 bytes_to_write in
    if negb (ret =? 0) then fault kbuf1 else update kbuf1.

(** Lines 341-356 of the dump: the window assembled in the temporary block
    [temp] and then NUL-terminated. *)
Definition klog_proc_show_temp (st : klog) (temp : list byte) : list byte :=
  let temp1 :=
    if buffer_head st >=? buffer_available st then
      memcpy temp 0 (klog_buffer st)
             (size_t (buffer_head st - buffer_available st))
             (buffer_available st)
    else
      let first_part :=
        size_t (size_t buffer_size
                - size_t (buffer_available st - buffer_head st)) in
      let temp' :=
        memcpy temp 0 (klog_buffer st) first_part
               (size_t (buffer_available st - buffer_head st)) in
      memcpy temp' (size_t (buffer_available st - buffer_head st))
             (klog_buffer st) 0 (buffer_head st) in
  <[Z.to_nat (buffer_available st) := x00]> temp1.

(** [klog_proc_show]: [kmalloc_result] is what [kmalloc(buffer_available + 1)]
    returned, [None] for NULL, otherwise a block of that many bytes of
    unspecified content.  The result is the return value and the text put
    into the seq_file. *)
Definition klog_proc_show (st : klog) (kmalloc_result : option (list byte))
  : (Z * list byte) * klog :=
  match kmalloc_result with
  | None => ((- ENOMEM, []), st)
  | Some temp => ((0, c_string (klog_proc_show_temp st temp)), st)
  end.

(** ** Well-formed states and call sequences *)

(** The ring is [buffer_size] bytes long, the write position is inside it
    and the count of valid bytes does not exceed it. *)
Definition klog_inv (st : klog) : Prop :=
  Z.of_nat (length (klog_buffer st)) = buffer_size ∧
  0 ≤ buffer_head st < buffer_size ∧
  0 ≤ buffer_available st ≤ buffer_size.

(** One call into the device, with everything the caller and the kernel
    supply to it. *)
Inductive klog_call : Type :=
  | CallWrite (ubuf : list byte) (len offset : Z)
  | CallRead (ubuf : list byte) (len offset : Z)
  | CallShow (kmalloc_result : option (list byte)).

(** The length argument is a [size_t]. *)
Definition call_wf (c : klog_call) : Prop :=
  match c with
  | CallWrite _ len _ | CallRead _ len _ => 0 ≤ len < 2 ^ 64
  | CallShow _ => True
  end.

Definition klog_step (st : klog) (c : klog_call) : klog :=
  match c with
  | CallWrite ubuf len offset => snd (klog_write st ubuf len offset)
  | CallRead ubuf len offset => snd (klog_read st ubuf len offset)
  | CallShow r => snd (klog_proc_show st r)
  end.

Definition klog_run (st : klog) (calls : list klog_call) : klog :=
  foldl klog_step st calls.

(** States the device can be in: those some sequence of calls produces
    from the initial one. *)
Definition klog_reachable (st : klog) : Prop :=
  ∃ calls, Forall call_wf calls ∧ st = klog_run klog_init calls.

(** A write whose whole buffer is readable. *)
Definition klog_append (st : klog) (data : list byte) : klog :=
  snd (klog_write st data (Z.of_nat (length data)) 0).

Definition klog_appends (st : klog) (datas : list (list byte)) : klog :=
  foldl klog_append st datas.

(** The text a dump produces when its allocation returned [temp]. *)
Definition klog_dump (st : klog) (temp : list byte) : list byte :=
  snd (fst (klog_proc_show st (Some temp))).

(** ** Specification side *)

(** Absolute index of the byte at [offset] in the logical window. *)
Definition window_index (st : klog) (offset : Z) : Z :=
  (buffer_head st + buffer_size - buffer_available st + offset)
  mod buffer_size.

(** Byte of the ring at an absolute index. *)
Definition ring_byte (st : klog) (i : Z) : byte :=
  default x00 (klog_buffer st !! Z.to_nat i).

(** The logical window: the [buffer_available] bytes that end at
    [buffer_head], oldest first. *)
Definition klog_window (st : klog) : list byte :=
  (fun k => ring_byte st (window_index st k)) <$> seqZ 0 (buffer_available st).

(** The positional read as the specification words it: nothing at or
    behind the end of the window, otherwise
    [min maxLen (available - offset)] bytes from [window_index offset] on. *)
Definition readAt_spec (st : klog) (offset maxLen : Z) : list byte :=
  if buffer_available st <=? offset then []
  else (fun k => ring_byte st (window_index st (offset + k)))
         <$> seqZ 0 (Z.min maxLen (buffer_available st - offset)).

(** The bytes [out] handed out for position [offset] are bytes of the
    window: they are what the window holds from [offset] on. *)
Definition within_window (st : klog) (offset : Z) (out : list byte) : Prop :=
  ∃ rest, drop (Z.to_nat offset) (klog_window st) = out ++ rest.

(** The last [n] bytes of a sequence. *)
Definition last_bytes (n : Z) (l : list byte) : list byte :=
  drop (length l - Z.to_nat n) l.

(** The ring after [bytes] were stored from [head] on, wrapping at the
    end: position [i] holds byte [(i - head) mod buffer_size] of [bytes]
    if there is one, and what it held before otherwise. *)
Definition ring_put (buf : list byte) (head : Z) (bytes : list byte)
  : list byte :=
  imap (fun i x =>
          default x (bytes !! Z.to_nat ((Z.of_nat i - head) mod buffer_size)))
       buf.

(** What an append that stores [chosen] has to establish: the count
    returned, the bytes in the ring from the old head on, the rest of the
    ring untouched, head advanced and the count of valid bytes raised,
    capped at the capacity. *)
Definition append_post (chosen : list byte) (st : klog) (ret : Z) (st' : klog)
  : Prop :=
  let n := Z.of_nat (length chosen) in
  ret = n ∧
  length (klog_buffer st') = length (klog_buffer st) ∧
  (∀ k, 0 ≤ k < n →
        klog_buffer st' !! Z.to_nat ((buffer_head st + k) mod buffer_size)
        = chosen !! Z.to_nat k) ∧
  (∀ i, 0 ≤ i < buffer_size →
        (∀ k, 0 ≤ k < n → (buffer_head st + k) mod buffer_size ≠ i) →
        klog_buffer st' !! Z.to_nat i = klog_buffer st !! Z.to_nat i) ∧
  buffer_head st' = (buffer_head st + n) mod buffer_size ∧
  buffer_available st' = Z.min (buffer_available st + n) buffer_size.

(** ** Reads in a row on one open file *)

(** Up to [k] calls of the device's read through one file descriptor, with
    no write in between, as the reader loop of the test program makes
    them: the kernel hands each call the file position the call before
    left behind, and the loop stops at a negative return.  The result is
    everything the calls delivered, in order, and the final position. *)
Fixpoint klog_read_seq (st : klog) (ubuf : list byte) (len pos : Z) (k : nat)
  : list byte * Z :=
  match k with
  | O => ([], pos)
  | S k' =>
      let r := fst (klog_read st ubuf len pos) in
      if read_ret r <? 0 then ([], pos)
      else
        let rest := klog_read_seq st ubuf len (read_fpos r) k' in
        (read_bytes r ++ fst rest, snd rest)
  end.

(** ** Loading the module *)

(** What [class_create] and [device_create] return: a valid pointer, or
    an error pointer carrying [PTR_ERR] = [err]. *)
Inductive ptr_result : Type :=
  | PtrOk
  | PtrErr (err : Z).

(** The kernel calls of [klog_init] that take or give back something,
    each with the result the kernel gave. *)
Inductive kcall : Type :=
  | Call_kmalloc (ok : bool)
  | Call_memset
  | Call_init_rwsem
  | Call_register_chrdev (ret : Z)
  | Call_class_create (r : ptr_result)
  | Call_device_create (major : Z) (r : ptr_result)
  | Call_proc_create (ok : bool)
  | Call_kfree
  | Call_unregister_chrdev (major : Z)
  | Call_class_destroy
  | Call_device_destroy (major : Z).

(** What the kernel answers during one run of [klog_init]. *)
Record init_env : Type := InitEnv {
  kmalloc_ok : bool;               (* kmalloc returned a block *)
  register_chrdev_ret : Z;         (* the major number, or a negative errno *)
  class_create_ret : ptr_result;
  device_create_ret : ptr_result;
  proc_create_ok : bool            (* proc_create returned an entry *)
}.

(** [klog_init] with all its exits: the return value, the kernel calls
    made in order, and the device state when the module is loaded.  The
    [printk] lines are left out. *)
Definition klog_init_call (env : init_env) : Z * list kcall * option klog :=
  if negb (kmalloc_ok env) then
    (- ENOMEM, [Call_kmalloc false], None)
  else
    let major_number := register_chrdev_ret env in
    let t1 := [Call_kmalloc true; Call_memset; Call_init_rwsem;
               Call_register_chrdev major_number] in
    if major_number <? 0 then
      (major_number, t1 ++ [Call_kfree], None)
    else
      let t2 := t1 ++ [Call_class_create (class_create_ret env)] in
      match class_create_ret env with
      | PtrErr err =>
          (err, t2 ++ [Call_unregister_chrdev major_number; Call_kfree], None)
      | PtrOk =>
          let t3 :=
            t2 ++ [Call_device_create major_number (device_create_ret env)] in
          match device_create_ret env with
          | PtrErr err =>
              (err,
               t3 ++ [Call_class_destroy; Call_unregister_chrdev major_number;
                      Call_kfree], None)
          | PtrOk =>
              let t4 := t3 ++ [Call_proc_create (proc_create_ok env)] in
              if negb (proc_create_ok env) then
                (- ENOMEM,
                 t4 ++ [Call_device_destroy major_number; Call_class_destroy;
                        Call_unregister_chrdev major_number; Call_kfree], None)
              else (0, t4, Some klog_init)
          end
      end.

(** What the module can hold. *)
Inductive resource : Type :=
  | ResBuffer | ResChrdev | ResClass | ResDevice | ResProc.

#[global] Instance resource_eq_dec : EqDecision resource.
Proof. solve_decision. Defined.

(** The resource a call hands over when it succeeds ... *)
Definition acquires (c : kcall) : option resource :=
  match c with
  | Call_kmalloc true => Some ResBuffer
  | Call_register_chrdev ret => if ret <? 0 then None else Some ResChrdev
  | Call_class_create PtrOk => Some ResClass
  | Call_device_create _ PtrOk => Some ResDevice
  | Call_proc_create true => Some ResProc
  | _ => None
  end.

(** ... and the resource a call gives back. *)
Definition releases (c : kcall) : option resource :=
  match c with
  | Call_kfree => Some ResBuffer
  | Call_unregister_chrdev _ => Some ResChrdev
  | Call_class_destroy => Some ResClass
  | Call_device_destroy _ => Some ResDevice
  | _ => None
  end.

(** The resources held after a sequence of calls, newest first; [None]
    when a call gives back anything but the newest resource held. *)
Fixpoint held (stack : list resource) (calls : list kcall)
  : option (list resource) :=
  match calls with
  | [] => Some stack
  | c :: calls' =>
      match releases c with
      | Some r =>
          match stack with
          | r' :: stack' =>
              if decide (r = r') then held stack' calls' else None
          | [] => None
          end
      | None =>
          match acquires c with
          | Some r => held (r :: stack) calls'
          | None => held stack calls'
          end
      end
  end.

(** Every error pointer carries an errno: [- MAX_ERRNO <= err < 0]. *)
Definition ptr_result_wf (r : ptr_result) : Prop :=
  match r with
  | PtrOk => True
  | PtrErr err => - 4095 ≤ err < 0
  end.

Definition init_env_wf (env : init_env) : Prop :=
  ptr_result_wf (class_create_ret env) ∧ ptr_result_wf (device_create_ret env).

(** * Properties *)

(** The parameter is a positive [int]. *)
Hypothesis buffer_size_int : 0 < buffer_size ≤ INT_MAX.

(** ** Arithmetic without overflow *)

Lemma size_t_small x : 0 ≤ x < 2 ^ 64 → size_t x = x.
Proof. intros Hx. unfold size_t. apply Z.mod_small. lia. Qed.

Lemma loff_t_small x : - 2 ^ 63 ≤ x < 2 ^ 63 → loff_t x = x.
Proof. intros Hx. unfold loff_t. rewrite Z.mod_small; lia. Qed.

Lemma ssize_t_small x : - 2 ^ 63 ≤ x < 2 ^ 63 → ssize_t x = x.
Proof. intros Hx. unfold ssize_t. rewrite Z.mod_small; lia. Qed.

Lemma size_t_buffer_size : size_t buffer_size = buffer_size.
Proof. apply size_t_small. unfold INT_MAX in *. lia. Qed.

(** [x mod buffer_size] once the quotient is known. *)
Lemma mod_at q x :
  0 ≤ x - q * buffer_size < buffer_size →
  x mod buffer_size = x - q * buffer_size.
Proof.
  intros Hx. symmetry. apply (Z.mod_unique x buffer_size q); [lia | lia].
Qed.

Lemma mod_in_range x : 0 ≤ x mod buffer_size < buffer_size.
Proof. apply Z.mod_pos_bound. lia. Qed.

(** ** Block copies, byte by byte *)

Lemma length_memcpy dst d src s n : length (memcpy dst d src s n) = length dst.
Proof. apply length_imap. Qed.

Lemma length_memset dst d v n : length (memset dst d v n) = length dst.
Proof. apply length_imap. Qed.

Lemma lookup_memcpy_inside dst d src s n (i : nat) :
  d ≤ Z.of_nat i < d + n →
  (i < length dst)%nat →
  0 ≤ s + (Z.of_nat i - d) < Z.of_nat (length src) →
  memcpy dst d src s n !! i = src !! Z.to_nat (s + (Z.of_nat i - d)).
Proof.
  intros Hi Hdst Hsrc. unfold memcpy. rewrite list_lookup_imap.
  destruct (lookup_lt_is_Some_2 dst i Hdst) as [x ->]. simpl.
  rewrite bool_decide_eq_true_2 by done.
  destruct (lookup_lt_is_Some_2 src (Z.to_nat (s + (Z.of_nat i - d)))) as [y ->];
    [lia | done].
Qed.

Lemma lookup_memcpy_outside dst d src s n (i : nat) :
  ¬ (d ≤ Z.of_nat i < d + n) →
  memcpy dst d src s n !! i = dst !! i.
Proof.
  intros Hi. unfold memcpy. rewrite list_lookup_imap.
  destruct (dst !! i) as [x|]; simpl; [|done].
  by rewrite bool_decide_eq_false_2.
Qed.

Lemma memset_nothing dst d v n : n ≤ 0 → memset dst d v n = dst.
Proof.
  intros Hn. apply list_eq; intros i. unfold memset.
  rewrite list_lookup_imap. destruct (dst !! i) as [x|]; simpl; [|done].
  rewrite bool_decide_eq_false_2; [done | lia].
Qed.

(** ** The user-space boundary *)

Lemma accessible_all ubuf s n :
  0 ≤ n → s + n ≤ Z.of_nat (length ubuf) → accessible ubuf s n = n.
Proof. unfold accessible. lia. Qed.

Lemma accessible_range ubuf s n : 0 ≤ n → 0 ≤ accessible ubuf s n ≤ n.
Proof. unfold accessible. lia. Qed.

Lemma copy_from_user_ok kdst d ubuf s n :
  0 ≤ n → s + n ≤ Z.of_nat (length ubuf) →
  copy_from_user kdst d ubuf s n = (0, memcpy kdst d ubuf s n).
Proof.
  intros Hn Hs. unfold copy_from_user. rewrite accessible_all by done.
  rewrite Z.sub_diag, memset_nothing by lia. done.
Qed.

Lemma copy_to_user_ok ubuf d ksrc s n :
  0 ≤ n → d + n ≤ Z.of_nat (length ubuf) →
  copy_to_user ubuf d ksrc s n = (0, memcpy ubuf d ksrc s n).
Proof.
  intros Hn Hs. unfold copy_to_user. rewrite accessible_all by done.
  by rewrite Z.sub_diag.
Qed.

(** ** The ring after a store *)

Lemma length_ring_put buf head bytes :
  length (ring_put buf head bytes) = length buf.
Proof. apply length_imap. Qed.

Lemma lookup_ring_put buf head bytes (i : nat) :
  ring_put buf head bytes !! i
  = (fun x => default x (bytes !! Z.to_nat ((Z.of_nat i - head) mod buffer_size)))
      <$> buf !! i.
Proof. apply list_lookup_imap. Qed.

(** Position [i] of the ring was written: it holds byte [k] of [bytes]. *)
Lemma lookup_ring_put_written buf head bytes (i : nat) q k :
  (i < length buf)%nat →
  k = Z.of_nat i - head - q * buffer_size →
  0 ≤ k < buffer_size →
  k < Z.of_nat (length bytes) →
  ring_put buf head bytes !! i = bytes !! Z.to_nat k.
Proof.
  intros Hi -> Hk Hlen. rewrite lookup_ring_put.
  destruct (lookup_lt_is_Some_2 buf i Hi) as [x ->]. simpl.
  rewrite (mod_at q) by lia.
  destruct (lookup_lt_is_Some_2 bytes
              (Z.to_nat (Z.of_nat i - head - q * buffer_size))) as [y ->];
    [lia | done].
Qed.

(** Position [i] of the ring was not written: it holds what it held. *)
Lemma lookup_ring_put_kept buf head bytes (i : nat) q :
  0 ≤ Z.of_nat i - head - q * buffer_size < buffer_size →
  Z.of_nat (length bytes) ≤ Z.of_nat i - head - q * buffer_size →
  ring_put buf head bytes !! i = buf !! i.
Proof.
  intros Hk Hlen. rewrite lookup_ring_put.
  destruct (buf !! i) as [x|]; simpl; [|done].
  rewrite (mod_at q) by lia. rewrite lookup_ge_None_2; [done | lia].
Qed.

(** ** A write whose buffer is readable *)

Lemma klog_write_ok st ubuf len offset :
  klog_inv st →
  0 ≤ len →
  Z.min len buffer_size ≤ Z.of_nat (length ubuf) →
  klog_write st ubuf len offset
  = ((Z.min len buffer_size, loff_t (offset + Z.min len buffer_size)),
     Klog (ring_put (klog_buffer st) (buffer_head st)
                    (take (Z.to_nat (Z.min len buffer_size)) ubuf))
          ((buffer_head st + Z.min len buffer_size) mod buffer_size)
          (Z.min (buffer_available st + Z.min len buffer_size) buffer_size)).
Proof.
  intros (Hbuf & Hhead & Havail) Hlen Hubuf.
  pose proof buffer_size_int as Hsz. unfold INT_MAX in Hsz.
  unfold klog_write. rewrite size_t_buffer_size.
  set (n := Z.min len buffer_size) in *.
  assert (0 ≤ n ≤ buffer_size) as Hn by lia.
  rewrite (size_t_small (buffer_head st + n)) by lia.
  rewrite (size_t_small (buffer_available st + n)) by lia.
  rewrite (ssize_t_small n) by lia.
  destruct (buffer_head st + n >? buffer_size) eqn:Hwrap.
  - apply Z.gtb_lt in Hwrap.
    rewrite (size_t_small (buffer_size - buffer_head st)) by lia.
    rewrite (size_t_small (n - (buffer_size - buffer_head st))) by lia.
    rewrite copy_from_user_ok by lia. cbv beta iota zeta.
    change (negb (0 =? 0)) with false. cbv iota.
    rewrite copy_from_user_ok by lia. cbv beta iota zeta.
    change (negb (0 =? 0)) with false. cbv iota.
    do 2 f_equal. apply list_eq; intros i.
    destruct (decide (i < length (klog_buffer st))%nat) as [Hi|Hi].
    + destruct (decide (Z.of_nat i < n - (buffer_size - buffer_head st))).
      * rewrite lookup_memcpy_inside by (rewrite ?length_memcpy; lia).
        rewrite (lookup_ring_put_written _ _ _ _ (-1)
                   (Z.of_nat i + (buffer_size - buffer_head st)))
          by (rewrite ?length_take; lia).
        rewrite lookup_take_lt by lia. f_equal; lia.
      * rewrite lookup_memcpy_outside by lia.
        destruct (decide (buffer_head st ≤ Z.of_nat i)).
        -- rewrite lookup_memcpy_inside by lia.
           rewrite (lookup_ring_put_written _ _ _ _ 0
                      (Z.of_nat i - buffer_head st))
             by (rewrite ?length_take; lia).
           rewrite lookup_take_lt by lia. f_equal; lia.
        -- rewrite lookup_memcpy_outside by lia.
           rewrite (lookup_ring_put_kept _ _ _ _ (-1))
             by (rewrite ?length_take; lia).
           done.
    + rewrite !lookup_ge_None_2;
        rewrite ?length_memcpy, ?length_ring_put; [done | lia | lia].
  - rewrite Z.gtb_ltb in Hwrap. apply Z.ltb_ge in Hwrap.
    rewrite copy_from_user_ok by lia. cbv beta iota zeta.
    change (negb (0 =? 0)) with false. cbv iota.
    do 2 f_equal. apply list_eq; intros i.
    destruct (decide (i < length (klog_buffer st))%nat) as [Hi|Hi].
    + destruct (decide (buffer_head st ≤ Z.of_nat i < buffer_head st + n)).
      * rewrite lookup_memcpy_inside by lia.
        rewrite (lookup_ring_put_written _ _ _ _ 0
                   (Z.of_nat i - buffer_head st))
          by (rewrite ?length_take; lia).
        rewrite lookup_take_lt by lia. f_equal; lia.
      * rewrite lookup_memcpy_outside by lia.
        destruct (decide (buffer_head st ≤ Z.of_nat i)).
        -- rewrite (lookup_ring_put_kept _ _ _ _ 0)
             by (rewrite ?length_take; lia).
           done.
        -- rewrite (lookup_ring_put_kept _ _ _ _ (-1))
             by (rewrite ?length_take; lia).
           done.
    + rewrite !lookup_ge_None_2;
        rewrite ?length_memcpy, ?length_ring_put; [done | lia | lia].
Qed.

(** ** The logical window *)

Lemma window_index_range st offset :
  0 ≤ window_index st offset < buffer_size.
Proof. apply mod_in_range. Qed.

Lemma window_index_add st offset k :
  window_index st (offset + k) = (window_index st offset + k) mod buffer_size.
Proof.
  unfold window_index. rewrite Zplus_mod_idemp_l. f_equal. lia.
Qed.

Lemma length_klog_window st :
  length (klog_window st) = Z.to_nat (buffer_available st).
Proof. unfold klog_window. by rewrite length_fmap, length_seqZ. Qed.

Lemma ring_byte_lookup st i :
  klog_inv st → 0 ≤ i < buffer_size →
  Some (ring_byte st i) = klog_buffer st !! Z.to_nat i.
Proof.
  intros (Hbuf & _) Hi. unfold ring_byte.
  destruct (lookup_lt_is_Some_2 (klog_buffer st) (Z.to_nat i)) as [x ->];
    [lia | done].
Qed.

Lemma lookup_klog_window st (k : nat) :
  klog_inv st → Z.of_nat k < buffer_available st →
  klog_window st !! k
  = klog_buffer st !! Z.to_nat (window_index st (Z.of_nat k)).
Proof.
  intros Hinv Hk. unfold klog_window.
  rewrite list_lookup_fmap, lookup_seqZ_lt by done. simpl.
  apply ring_byte_lookup; [done | apply window_index_range].
Qed.

(** ** The dump's temporary block *)

Lemma length_klog_proc_show_temp st temp :
  length (klog_proc_show_temp st temp) = length temp.
Proof.
  unfold klog_proc_show_temp. rewrite length_insert.
  destruct (_ >=? _); by rewrite ?length_memcpy.
Qed.

Lemma klog_proc_show_temp_window st temp :
  klog_inv st →
  Z.of_nat (length temp) = buffer_available st + 1 →
  klog_proc_show_temp st temp = klog_window st ++ [x00].
Proof.
  intros Hinv Htemp. pose proof Hinv as (Hbuf & Hhead & Havail).
  pose proof buffer_size_int as Hsz. unfold INT_MAX in Hsz.
  apply list_eq; intros i.
  destruct (decide (Z.of_nat i < buffer_available st)) as [Hi|Hi].
  - rewrite lookup_app_l by (rewrite length_klog_window; lia).
    rewrite lookup_klog_window by done.
    unfold klog_proc_show_temp. rewrite list_lookup_insert_ne by lia.
    unfold window_index.
    destruct (buffer_head st >=? buffer_available st) eqn:Hcase.
    + apply Z.geb_le in Hcase.
      rewrite (size_t_small (buffer_head st - buffer_available st)) by lia.
      rewrite lookup_memcpy_inside by lia.
      rewrite (mod_at 1) by lia. f_equal; lia.
    + rewrite Z.geb_leb in Hcase. apply Z.leb_gt in Hcase.
      rewrite !(size_t_small (buffer_available st - buffer_head st)) by lia.
      rewrite size_t_buffer_size.
      rewrite (size_t_small (buffer_size - _)) by lia.
      destruct (decide (Z.of_nat i < buffer_available st - buffer_head st)).
      * rewrite lookup_memcpy_outside by lia.
        rewrite lookup_memcpy_inside by lia.
        rewrite (mod_at 0) by lia. f_equal; lia.
      * rewrite lookup_memcpy_inside by (rewrite ?length_memcpy; lia).
        rewrite (mod_at 1) by lia. f_equal; lia.
  - rewrite lookup_app_r by (rewrite length_klog_window; lia).
    rewrite length_klog_window.
    destruct (decide (Z.of_nat i = buffer_available st)) as [Heq|Hne].
    + replace (i - Z.to_nat (buffer_available st))%nat with 0%nat by lia.
      unfold klog_proc_show_temp.
      replace (Z.to_nat (buffer_available st)) with i by lia.
      rewrite list_lookup_insert_eq; [done|].
      destruct (_ >=? _); rewrite ?length_memcpy; lia.
    + rewrite !lookup_ge_None_2; [done | simpl; lia |].
      rewrite length_klog_proc_show_temp. lia.
Qed.

(** ** A read whose buffer is writable *)

(** What the code delivers: [min len buffer_available] bytes from
    [window_index offset] on, wrapping at the end of the ring. *)
Lemma klog_read_ok st ubuf len offset :
  klog_inv st →
  0 ≤ len →
  0 ≤ offset < buffer_available st →
  Z.min len (buffer_available st) ≤ Z.of_nat (length ubuf) →
  let n := Z.min len (buffer_available st) in
  let r := klog_read st ubuf len offset in
  read_ret (fst r) = n ∧
  read_fpos (fst r) = offset + n ∧
  snd r = st ∧
  read_bytes (fst r)
  = (fun k => ring_byte st (window_index st (offset + k))) <$> seqZ 0 n.
Proof.
  intros Hinv Hlen Hoff Hubuf n r. pose proof Hinv as (Hbuf & Hhead & Havail).
  pose proof buffer_size_int as Hsz. unfold INT_MAX in Hsz.
  assert (0 ≤ n ≤ buffer_available st) as Hn by lia.
  assert (∀ ubuf',
    (∀ k : nat, Z.of_nat k < n →
       ubuf' !! k = klog_buffer st !! Z.to_nat (window_index st (offset + Z.of_nat k))) →
    take (Z.to_nat n) ubuf'
    = (fun k => ring_byte st (window_index st (offset + k))) <$> seqZ 0 n)
    as Hbytes.
  { intros ubuf' Hk. apply list_eq; intros k.
    destruct (decide (Z.of_nat k < n)) as [Hlt|Hge].
    - rewrite lookup_take_lt, Hk by lia.
      rewrite list_lookup_fmap, lookup_seqZ_lt by done. simpl.
      symmetry. apply ring_byte_lookup; [done | apply window_index_range].
    - rewrite lookup_take_ge by lia.
      by rewrite list_lookup_fmap, lookup_seqZ_ge by lia. }
  subst r. unfold klog_read.
  destruct (buffer_available st =? 0) eqn:Hzero; [lia|].
  rewrite size_t_buffer_size, (size_t_small offset) by lia.
  destruct (offset <? buffer_available st) eqn:Hlt; [|lia].
  rewrite (size_t_small (buffer_head st + buffer_size)) by lia.
  rewrite (size_t_small (buffer_head st + buffer_size - buffer_available st))
    by lia.
  rewrite (size_t_small (_ + offset)) by lia.
  change ((buffer_head st + buffer_size - buffer_available st + offset)
          mod buffer_size) with (window_index st offset).
  pose proof (window_index_range st offset) as Hrp.
  assert (∀ k, window_index st (offset + k)
               = (window_index st offset + k) mod buffer_size) as Hidx
    by apply window_index_add.
  set (rp := window_index st offset) in *. fold n.
  rewrite (size_t_small (rp + n)) by lia.
  rewrite (loff_t_small (offset + n)) by lia.
  rewrite (ssize_t_small n) by lia.
  destruct (rp + n >? buffer_size) eqn:Hwrap.
  - apply Z.gtb_lt in Hwrap.
    rewrite (size_t_small (buffer_size - rp)) by lia.
    rewrite (size_t_small (n - (buffer_size - rp))) by lia.
    rewrite copy_to_user_ok by lia. cbv beta iota zeta.
    change (negb (0 =? 0)) with false. cbv iota.
    rewrite copy_to_user_ok by (rewrite ?length_memcpy; lia).
    cbv beta iota zeta. change (negb (0 =? 0)) with false. cbv iota.
    unfold read_bytes. cbn [fst snd read_ret read_ubuf read_fpos].
    repeat split; try done.
    apply Hbytes. intros k Hk. rewrite Hidx.
    destruct (decide (Z.of_nat k < buffer_size - rp)).
    + rewrite lookup_memcpy_outside by lia.
      rewrite lookup_memcpy_inside by lia.
      rewrite (mod_at 0) by lia. f_equal; lia.
    + rewrite lookup_memcpy_inside by (rewrite ?length_memcpy; lia).
      rewrite (mod_at 1) by lia. f_equal; lia.
  - rewrite Z.gtb_ltb in Hwrap. apply Z.ltb_ge in Hwrap.
    rewrite copy_to_user_ok by lia. cbv beta iota zeta.
    change (negb (0 =? 0)) with false. cbv iota.
    unfold read_bytes. cbn [fst snd read_ret read_ubuf read_fpos].
    repeat split; try done.
    apply Hbytes. intros k Hk. rewrite Hidx.
    rewrite lookup_memcpy_inside by lia.
    rewrite (mod_at 0) by lia. f_equal; lia.
Qed.

(** ** How an append moves the window *)

Lemma take_min_length (data : list byte) n :
  take (Z.to_nat (Z.min (Z.of_nat (length data)) n)) data
  = take (Z.to_nat n) data.
Proof.
  destruct (decide (Z.of_nat (length data) ≤ n)).
  - rewrite !take_ge; [done | lia | lia].
  - f_equal. lia.
Qed.

Lemma klog_append_eq st data :
  klog_inv st →
  klog_append st data
  = Klog (ring_put (klog_buffer st) (buffer_head st)
                   (take (Z.to_nat buffer_size) data))
         ((buffer_head st + Z.min (Z.of_nat (length data)) buffer_size)
          mod buffer_size)
         (Z.min (buffer_available st
                 + Z.min (Z.of_nat (length data)) buffer_size) buffer_size).
Proof.
  intros Hinv. unfold klog_append.
  rewrite klog_write_ok by (done || lia). simpl.
  by rewrite take_min_length.
Qed.

Lemma klog_append_inv st data : klog_inv st → klog_inv (klog_append st data).
Proof.
  intros Hinv. rewrite klog_append_eq by done.
  destruct Hinv as (Hbuf & Hhead & Havail).
  unfold klog_inv. simpl. rewrite length_ring_put.
  pose proof (mod_in_range
    (buffer_head st + Z.min (Z.of_nat (length data)) buffer_size)).
  lia.
Qed.

Lemma lookup_ring_put_mod buf head bytes e :
  Z.of_nat (length buf) = buffer_size →
  ring_put buf head bytes !! Z.to_nat (e mod buffer_size)
  = match bytes !! Z.to_nat ((e - head) mod buffer_size) with
    | Some y => Some y
    | None => buf !! Z.to_nat (e mod buffer_size)
    end.
Proof.
  intros Hbuf. pose proof (mod_in_range e) as He.
  rewrite lookup_ring_put. rewrite Z2Nat.id by lia.
  rewrite Zminus_mod_idemp_l.
  destruct (lookup_lt_is_Some_2 buf (Z.to_nat (e mod buffer_size))) as [x ->];
    [lia|].
  simpl. by destruct (bytes !! _).
Qed.

Lemma klog_window_append st data :
  klog_inv st →
  klog_window (klog_append st data)
  = last_bytes buffer_size
      (klog_window st ++ take (Z.to_nat buffer_size) data).
Proof.
  intros Hinv. pose proof (klog_append_inv st data Hinv) as Hinv'.
  pose proof buffer_size_int as Hsz. unfold INT_MAX in Hsz.
  pose proof Hinv as (Hbuf & Hhead & Havail).
  apply list_eq; intros k. unfold last_bytes.
  rewrite lookup_drop, length_app, length_klog_window, length_take.
  destruct (decide (Z.of_nat k < buffer_available (klog_append st data)))
    as [Hk|Hk].
  - rewrite lookup_klog_window by done.
    revert Hk. unfold window_index. rewrite klog_append_eq by done.
    cbn [klog_buffer buffer_head buffer_available].
    set (n := Z.min (Z.of_nat (length data)) buffer_size).
    set (a' := Z.min (buffer_available st + n) buffer_size).
    intros Hk.
    replace ((buffer_head st + n) mod buffer_size + buffer_size - a' + Z.of_nat k)
      with ((buffer_head st + n) mod buffer_size
            + (buffer_size - a' + Z.of_nat k)) by lia.
    rewrite Zplus_mod_idemp_l.
    replace (buffer_head st + n + (buffer_size - a' + Z.of_nat k))
      with (buffer_head st + n - a' + Z.of_nat k + 1 * buffer_size) by lia.
    rewrite Z_mod_plus_full.
    rewrite lookup_ring_put_mod by done.
    replace (buffer_head st + n - a' + Z.of_nat k - buffer_head st)
      with (n - a' + Z.of_nat k) by lia.
    destruct (decide (0 ≤ n - a' + Z.of_nat k)) as [Hnew|Hold].
    + rewrite (mod_at 0) by lia.
      rewrite lookup_app_r by (rewrite length_klog_window; lia).
      rewrite length_klog_window.
      destruct (lookup_lt_is_Some_2 (take (Z.to_nat buffer_size) data)
                  (Z.to_nat (n - a' + Z.of_nat k - 0 * buffer_size)))
        as [y Hy]; [rewrite length_take; lia|].
      rewrite Hy, <- Hy. f_equal. lia.
    + rewrite (mod_at (-1)) by lia.
      rewrite lookup_ge_None_2 by (rewrite length_take; lia).
      rewrite lookup_app_l by (rewrite length_klog_window; lia).
      rewrite lookup_klog_window by (done || lia).
      unfold window_index.
      replace (buffer_head st + buffer_size - buffer_available st
               + Z.of_nat (Z.to_nat (buffer_available st)
                           + Nat.min (Z.to_nat buffer_size) (length data)
                           - Z.to_nat buffer_size + k)%nat)
        with (buffer_head st + n - a' + Z.of_nat k + 1 * buffer_size) by lia.
      by rewrite Z_mod_plus_full.
  - rewrite lookup_ge_None_2 by (rewrite length_klog_window; lia).
    symmetry. apply lookup_ge_None_2.
    rewrite length_app, length_klog_window, length_take.
    revert Hk. rewrite klog_append_eq by done.
    cbn [buffer_available]. lia.
Qed.

(** ** Sequences of appends *)

Lemma last_bytes_all n (l : list byte) :
  Z.of_nat (length l) ≤ n → last_bytes n l = l.
Proof.
  intros Hl. unfold last_bytes.
  replace (length l - Z.to_nat n)%nat with 0%nat by lia. done.
Qed.

Lemma length_last_bytes n (l : list byte) :
  0 ≤ n → Z.of_nat (length (last_bytes n l)) = Z.min n (Z.of_nat (length l)).
Proof. intros Hn. unfold last_bytes. rewrite length_drop. lia. Qed.

Lemma last_bytes_app n (l r : list byte) :
  0 ≤ n → last_bytes n (last_bytes n l ++ r) = last_bytes n (l ++ r).
Proof.
  intros Hn. apply list_eq; intros i. unfold last_bytes.
  rewrite !lookup_drop, !length_app, !length_drop.
  rewrite !lookup_app, !lookup_drop, !length_drop.
  destruct (decide (length l ≤ Z.to_nat n)%nat) as [Hshort|Hlong].
  - replace (length l - Z.to_nat n)%nat with 0%nat by lia.
    rewrite !Nat.sub_0_r. done.
  - replace (length l - (length l - Z.to_nat n) + length r - Z.to_nat n)%nat
      with (length r) by lia.
    replace (length l + length r - Z.to_nat n)%nat
      with (length l - Z.to_nat n + length r)%nat by lia.
    replace (length l - Z.to_nat n + (length r + i))%nat
      with (length l - Z.to_nat n + length r + i)%nat by lia.
    destruct (l !! _); [done|]. f_equal. lia.
Qed.

Lemma klog_init_inv : klog_inv klog_init.
Proof.
  pose proof buffer_size_int. unfold klog_inv, klog_init. simpl.
  rewrite length_replicate. lia.
Qed.

Lemma klog_window_init : klog_window klog_init = [].
Proof. done. Qed.

Lemma klog_appends_inv st datas :
  klog_inv st → klog_inv (klog_appends st datas).
Proof.
  revert st. induction datas as [|d datas IH]; intros st Hinv; [done|].
  simpl. apply IH. by apply klog_append_inv.
Qed.

(** The window after any sequence of appends: the last [buffer_size] bytes
    of what was there followed by what each append took. *)
Lemma klog_window_appends st datas :
  klog_inv st →
  klog_window (klog_appends st datas)
  = last_bytes buffer_size
      (klog_window st ++ concat (take (Z.to_nat buffer_size) <$> datas)).
Proof.
  pose proof buffer_size_int as Hsz.
  revert st. induction datas as [|d datas IH]; intros st Hinv.
  - simpl. rewrite app_nil_r, last_bytes_all; [done|].
    rewrite length_klog_window. destruct Hinv as (_ & _ & ?). lia.
  - simpl. rewrite IH by by apply klog_append_inv.
    rewrite klog_window_append by done.
    rewrite last_bytes_app by lia. by rewrite <- app_assoc.
Qed.

Lemma buffer_available_appends st datas :
  klog_inv st →
  buffer_available (klog_appends st datas)
  = Z.min buffer_size
      (buffer_available st
       + Z.of_nat (length (concat (take (Z.to_nat buffer_size) <$> datas)))).
Proof.
  intros Hinv. pose proof buffer_size_int as Hsz.
  pose proof (klog_appends_inv st datas Hinv) as (_ & _ & Ha).
  pose proof (f_equal (fun l => Z.of_nat (length l))
                (klog_window_appends st datas Hinv)) as Hlen.
  simpl in Hlen. rewrite length_last_bytes in Hlen by lia.
  rewrite length_app, !length_klog_window in Hlen.
  destruct Hinv as (_ & _ & ?). lia.
Qed.

Lemma take_all_short (datas : list (list byte)) n :
  Forall (fun d => Z.of_nat (length d) ≤ n) datas →
  take (Z.to_nat n) <$> datas = datas.
Proof.
  induction 1 as [|d datas Hd _ IH]; [done|].
  rewrite fmap_cons, IH, take_ge; [done | lia].
Qed.

Lemma concat_short_parts (datas : list (list byte)) n :
  Z.of_nat (length (concat datas)) ≤ n →
  Forall (fun d => Z.of_nat (length d) ≤ n) datas.
Proof.
  induction datas as [|d datas IH]; simpl; [constructor|].
  rewrite length_app. intros Hlen. constructor; [lia|]. apply IH. lia.
Qed.

(** ** What the dump prints *)

Lemma c_string_app_nul l r : c_string (l ++ x00 :: r) = c_string l.
Proof.
  induction l as [|b l IH]; simpl; [done|].
  destruct (Byte.eqb b x00); [done|]. by rewrite IH.
Qed.

Lemma c_string_no_nul l : x00 ∉ l → c_string l = l.
Proof.
  induction l as [|b l IH]; simpl; [done|]. intros Hnot.
  destruct (Byte.eqb b x00) eqn:Hb.
  - apply Byte.byte_dec_bl in Hb. subst b. exfalso. apply Hnot. left.
  - rewrite IH; [done|]. intros Hin. apply Hnot. by right.
Qed.

Lemma klog_proc_show_window st temp :
  klog_inv st →
  Z.of_nat (length temp) = buffer_available st + 1 →
  klog_proc_show st (Some temp) = ((0, c_string (klog_window st)), st).
Proof.
  intros Hinv Htemp. unfold klog_proc_show.
  rewrite klog_proc_show_temp_window by done.
  by rewrite c_string_app_nul.
Qed.

(** ** Calls whose user copy faults *)

Lemma lookup_memset_outside dst d v n (i : nat) :
  ¬ (d ≤ Z.of_nat i < d + n) → memset dst d v n !! i = dst !! i.
Proof.
  intros Hi. unfold memset. rewrite list_lookup_imap.
  destruct (dst !! i) as [x|]; simpl; [|done].
  by rewrite bool_decide_eq_false_2.
Qed.

(** A ring position that is none of the [n] positions from [head] on lies
    outside both pieces of the copy. *)
Lemma outside_target head n i :
  0 ≤ head < buffer_size → 0 ≤ i < buffer_size →
  (∀ k, 0 ≤ k < n → (head + k) mod buffer_size ≠ i) →
  ¬ (head ≤ i < head + n) ∧ ¬ (i < head + n - buffer_size).
Proof.
  intros Hhead Hi Hout. split; intros Hin.
  - apply (Hout (i - head)); [lia|]. rewrite (mod_at 0); lia.
  - apply (Hout (i + buffer_size - head)); [lia|]. rewrite (mod_at 1); lia.
Qed.

(** The user buffer is shorter than what the write wants to take: the
    write returns [-EFAULT]; head, count and file position stay, and so
    does every byte of the ring outside the positions the write aimed at. *)
Lemma klog_write_fault st ubuf len offset :
  klog_inv st →
  0 ≤ len →
  Z.of_nat (length ubuf) < Z.min len buffer_size →
  ∃ kbuf,
    klog_write st ubuf len offset
    = ((- EFAULT, offset), Klog kbuf (buffer_head st) (buffer_available st)) ∧
    length kbuf = length (klog_buffer st) ∧
    ∀ i, 0 ≤ i < buffer_size →
         (∀ k, 0 ≤ k < Z.min len buffer_size →
               (buffer_head st + k) mod buffer_size ≠ i) →
         kbuf !! Z.to_nat i = klog_buffer st !! Z.to_nat i.
Proof.
  intros (Hbuf & Hhead & Havail) Hlen Hshort.
  pose proof buffer_size_int as Hsz. unfold INT_MAX in Hsz.
  unfold klog_write. rewrite size_t_buffer_size.
  set (n := Z.min len buffer_size) in *.
  assert (0 ≤ n ≤ buffer_size) as Hn by lia.
  rewrite (size_t_small (buffer_head st + n)) by lia.
  destruct (buffer_head st + n >? buffer_size) eqn:Hwrap.
  - apply Z.gtb_lt in Hwrap.
    rewrite (size_t_small (buffer_size - buffer_head st)) by lia.
    rewrite (size_t_small (n - (buffer_size - buffer_head st))) by lia.
    unfold copy_from_user. cbv beta iota zeta.
    pose proof (accessible_range ubuf 0 (buffer_size - buffer_head st)).
    pose proof (accessible_range ubuf (buffer_size - buffer_head st)
                  (n - (buffer_size - buffer_head st))).
    destruct (_ - accessible ubuf 0 _ =? 0) eqn:Hfirst; cbn [negb].
    + apply Z.eqb_eq in Hfirst.
      destruct (_ - accessible ubuf (buffer_size - buffer_head st) _ =? 0)
        eqn:Hsecond; cbn [negb].
      * apply Z.eqb_eq in Hsecond. unfold accessible in *. lia.
      * eexists. split; [done|]. split.
        { by repeat first [rewrite length_memset | rewrite length_memcpy]. }
        intros i Hi Hout.
        pose proof (outside_target _ _ _ Hhead Hi Hout) as [? ?].
        repeat first [rewrite lookup_memset_outside by lia
                     | rewrite lookup_memcpy_outside by lia].
        done.
    + eexists. split; [done|]. split.
      { by repeat first [rewrite length_memset | rewrite length_memcpy]. }
      intros i Hi Hout.
      pose proof (outside_target _ _ _ Hhead Hi Hout) as [? ?].
      repeat first [rewrite lookup_memset_outside by lia
                     | rewrite lookup_memcpy_outside by lia].
        done.
  - rewrite Z.gtb_ltb in Hwrap. apply Z.ltb_ge in Hwrap.
    unfold copy_from_user. cbv beta iota zeta.
    pose proof (accessible_range ubuf 0 n).
    destruct (_ - accessible ubuf 0 _ =? 0) eqn:Hfirst; cbn [negb].
    + apply Z.eqb_eq in Hfirst. unfold accessible in *. lia.
    + eexists. split; [done|]. split.
      { by repeat first [rewrite length_memset | rewrite length_memcpy]. }
      intros i Hi Hout.
      pose proof (outside_target _ _ _ Hhead Hi Hout) as [? ?].
      repeat first [rewrite lookup_memset_outside by lia
                     | rewrite lookup_memcpy_outside by lia].
        done.
Qed.

(** The same for a read inside the window: [-EFAULT], file position and
    device state as before. *)
Lemma klog_read_fault st ubuf len offset :
  klog_inv st →
  0 ≤ len →
  0 ≤ offset < buffer_available st →
  Z.of_nat (length ubuf) < Z.min len (buffer_available st) →
  ∃ ubuf',
    klog_read st ubuf len offset = (ReadResult (- EFAULT) ubuf' offset, st).
Proof.
  intros (Hbuf & Hhead & Havail) Hlen Hoff Hshort.
  pose proof buffer_size_int as Hsz. unfold INT_MAX in Hsz.
  unfold klog_read.
  destruct (buffer_available st =? 0) eqn:Hzero; [lia|].
  rewrite size_t_buffer_size, (size_t_small offset) by lia.
  destruct (offset <? buffer_available st) eqn:Hlt; [|lia].
  rewrite (size_t_small (buffer_head st + buffer_size)) by lia.
  rewrite (size_t_small (buffer_head st + buffer_size - buffer_available st))
    by lia.
  rewrite (size_t_small (_ + offset)) by lia.
  pose proof (mod_in_range
    (buffer_head st + buffer_size - buffer_available st + offset)) as Hrp.
  set (rp := _ mod buffer_size) in *.
  set (n := Z.min len (buffer_available st)) in *.
  rewrite (size_t_small (rp + n)) by lia.
  destruct (rp + n >? buffer_size) eqn:Hwrap.
  - apply Z.gtb_lt in Hwrap.
    rewrite (size_t_small (buffer_size - rp)) by lia.
    rewrite (size_t_small (n - (buffer_size - rp))) by lia.
    unfold copy_to_user. cbv beta iota zeta.
    pose proof (accessible_range ubuf 0 (buffer_size - rp)).
    destruct (_ - accessible ubuf 0 _ =? 0) eqn:Hfirst; cbn [negb].
    + apply Z.eqb_eq in Hfirst.
      destruct (_ - accessible _ (buffer_size - rp) _ =? 0)
        eqn:Hsecond; cbn [negb].
      * apply Z.eqb_eq in Hsecond. unfold accessible in *.
        rewrite length_memcpy in Hsecond. lia.
      * by eexists.
    + by eexists.
  - rewrite Z.gtb_ltb in Hwrap. apply Z.ltb_ge in Hwrap.
    unfold copy_to_user. cbv beta iota zeta.
    destruct (_ - accessible ubuf 0 _ =? 0) eqn:Hfirst; cbn [negb].
    + apply Z.eqb_eq in Hfirst. unfold accessible in *. lia.
    + by eexists.
Qed.

(** ** Calls that only look *)

Lemma klog_read_state st ubuf len offset :
  snd (klog_read st ubuf len offset) = st.
Proof. unfold klog_read, copy_to_user. by repeat case_match. Qed.

Lemma klog_proc_show_state st r : snd (klog_proc_show st r) = st.
Proof. by destruct r. Qed.

(** ** One call, any call *)

Lemma klog_write_step st ubuf len offset :
  klog_inv st → 0 ≤ len →
  klog_inv (snd (klog_write st ubuf len offset)) ∧
  buffer_available st ≤ buffer_available (snd (klog_write st ubuf len offset)).
Proof.
  intros Hinv Hlen. pose proof Hinv as (Hbuf & Hhead & Havail).
  destruct (decide (Z.min len buffer_size ≤ Z.of_nat (length ubuf))) as [Hok|Hshort].
  - rewrite klog_write_ok by done. unfold klog_inv. simpl.
    rewrite length_ring_put.
    pose proof (mod_in_range (buffer_head st + Z.min len buffer_size)). lia.
  - destruct (klog_write_fault st ubuf len offset) as (kbuf & -> & Hlength & _);
      [done | done | lia |].
    unfold klog_inv. simpl. rewrite Hlength. lia.
Qed.

Lemma klog_step_inv st c :
  klog_inv st → call_wf c →
  klog_inv (klog_step st c) ∧
  buffer_available st ≤ buffer_available (klog_step st c).
Proof.
  intros Hinv Hwf. destruct c as [ubuf len offset|ubuf len offset|r]; simpl.
  - apply klog_write_step; [done | simpl in Hwf; lia].
  - by rewrite klog_read_state.
  - by rewrite klog_proc_show_state.
Qed.

Lemma klog_reachable_inv st : klog_reachable st → klog_inv st.
Proof.
  intros (calls & Hwf & ->). unfold klog_run.
  assert (∀ st0, klog_inv st0 → klog_inv (foldl klog_step st0 calls)) as Hrun.
  { induction Hwf as [|c calls Hc _ IH]; intros st0 Hinv; [done|].
    simpl. apply IH. by apply klog_step_inv. }
  apply Hrun, klog_init_inv.
Qed.

(** ** Where the read agrees with the specified positional read *)

Lemma klog_read_within_window st ubuf len offset :
  klog_inv st →
  0 ≤ len →
  0 ≤ offset < 2 ^ 63 →
  len ≤ Z.of_nat (length ubuf) →
  buffer_available st ≤ offset ∨ offset = 0
  ∨ len ≤ buffer_available st - offset →
  read_bytes (fst (klog_read st ubuf len offset)) = readAt_spec st offset len.
Proof.
  intros Hinv Hlen Hoff Hubuf Hfits. pose proof Hinv as (Hbuf & Hhead & Havail).
  pose proof buffer_size_int as Hsz. unfold INT_MAX in Hsz.
  unfold readAt_spec.
  destruct (buffer_available st <=? offset) eqn:Hend.
  - apply Z.leb_le in Hend. unfold klog_read.
    destruct (buffer_available st =? 0); [done|].
    rewrite (size_t_small offset) by lia.
    destruct (offset <? buffer_available st) eqn:Hlt; [lia | done].
  - apply Z.leb_gt in Hend.
    destruct (klog_read_ok st ubuf len offset) as (_ & _ & _ & ->);
      [done | done | lia | lia |].
    f_equal. f_equal. lia.
Qed.

(** ** What the dump hands out lies in the window *)

Lemma c_string_prefix l : ∃ rest, l = c_string l ++ rest.
Proof.
  induction l as [|b l [rest IH]]; simpl; [by exists []|].
  destruct (Byte.eqb b x00); [by eexists|].
  exists rest. simpl. by f_equal.
Qed.

Lemma klog_dump_within_window st temp :
  klog_inv st →
  Z.of_nat (length temp) = buffer_available st + 1 →
  within_window st 0 (klog_dump st temp).
Proof.
  intros Hinv Htemp. unfold within_window, klog_dump.
  rewrite klog_proc_show_window by done. simpl. apply c_string_prefix.
Qed.

(** * The claims *)

(** C3 (as amended).  A write whose whole buffer [data] is readable takes
    the FIRST [n = min (length data) buffer_size] bytes of [data]: it
    returns [n]; the ring holds byte [k] of [data] at position
    [(head + k) mod buffer_size] for every [k < n] and is unchanged
    everywhere else; head becomes [(head + n) mod buffer_size] and the
    count of valid bytes [min (available + n) buffer_size]. *)
Theorem klog_write_stores_leading_bytes st data offset :
  klog_inv st →
  let n := Z.min (Z.of_nat (length data)) buffer_size in
  let r := klog_write st data (Z.of_nat (length data)) offset in
  append_post (take (Z.to_nat n) data) st (fst (fst r)) (snd r).
Proof.
  intros Hinv n r. pose proof Hinv as (Hbuf & Hhead & Havail).
  pose proof buffer_size_int as Hsz.
  subst r. rewrite klog_write_ok by (done || lia). fold n.
  unfold append_post. cbn [fst snd klog_buffer buffer_head buffer_available].
  assert (Z.of_nat (length (take (Z.to_nat n) data)) = n) as ->
    by (rewrite length_take; lia).
  repeat split.
  - apply length_ring_put.
  - intros k Hk. rewrite lookup_ring_put_mod by done.
    replace (buffer_head st + k - buffer_head st) with k by lia.
    rewrite (mod_at 0 k) by lia. rewrite Z.sub_0_r.
    destruct (lookup_lt_is_Some_2 (take (Z.to_nat n) data) (Z.to_nat k))
      as [y ->]; [rewrite length_take; lia | done].
  - intros i Hi Hout. rewrite lookup_ring_put.
    destruct (klog_buffer st !! Z.to_nat i) as [x|]; [simpl|done].
    rewrite Z2Nat.id by lia.
    pose proof (mod_in_range (i - buffer_head st)) as Hk.
    rewrite lookup_ge_None_2; [done|]. rewrite length_take.
    destruct (decide ((i - buffer_head st) mod buffer_size < n)) as [Hin|]; [|lia].
    exfalso. apply (Hout ((i - buffer_head st) mod buffer_size)); [lia|].
    rewrite Zplus_mod_idemp_r.
    replace (buffer_head st + (i - buffer_head st)) with i by lia.
    rewrite (mod_at 0); lia.
Qed.

(** C4 (as amended).  After appends to a fresh device whose lengths add
    up to at most [buffer_size], the dump returns 0 and prints the
    concatenation of the appended sequences up to, and without, its first
    zero byte; without a zero byte among them it prints exactly the
    concatenation. *)
Theorem klog_dump_within_capacity datas temp :
  Z.of_nat (length (concat datas)) ≤ buffer_size →
  let st := klog_appends klog_init datas in
  Z.of_nat (length temp) = buffer_available st + 1 →
  klog_proc_show st (Some temp) = ((0, c_string (concat datas)), st) ∧
  (x00 ∉ concat datas → klog_dump st temp = concat datas).
Proof.
  intros Htotal st Htemp.
  assert (klog_window st = concat datas) as Hwindow.
  { subst st. rewrite klog_window_appends by apply klog_init_inv.
    rewrite klog_window_init, app_nil_l.
    rewrite take_all_short by by apply concat_short_parts.
    by apply last_bytes_all. }
  assert (klog_proc_show st (Some temp) = ((0, c_string (concat datas)), st))
    as Hshow.
  { rewrite klog_proc_show_window, Hwindow; [done | | done].
    apply klog_appends_inv, klog_init_inv. }
  split; [done|]. intros Hnul. unfold klog_dump. rewrite Hshow. simpl.
  by apply c_string_no_nul.
Qed.

(** C5 (as amended).  After appends to a fresh device, none longer than
    [buffer_size], whose lengths add up to more than [buffer_size], the
    dump returns 0 and prints the last [buffer_size] bytes of the
    concatenation up to, and without, the first zero byte among them;
    without a zero byte among them it prints exactly those bytes. *)
Theorem klog_dump_beyond_capacity datas temp :
  Forall (fun d => Z.of_nat (length d) ≤ buffer_size) datas →
  buffer_size < Z.of_nat (length (concat datas)) →
  let st := klog_appends klog_init datas in
  Z.of_nat (length temp) = buffer_available st + 1 →
  klog_proc_show st (Some temp)
  = ((0, c_string (last_bytes buffer_size (concat datas))), st) ∧
  (x00 ∉ last_bytes buffer_size (concat datas) →
   klog_dump st temp = last_bytes buffer_size (concat datas)).
Proof.
  intros Heach Htotal st Htemp.
  assert (klog_window st = last_bytes buffer_size (concat datas)) as Hwindow.
  { subst st. rewrite klog_window_appends by apply klog_init_inv.
    rewrite klog_window_init, app_nil_l.
    by rewrite take_all_short. }
  assert (klog_proc_show st (Some temp)
          = ((0, c_string (last_bytes buffer_size (concat datas))), st))
    as Hshow.
  { rewrite klog_proc_show_window, Hwindow; [done | | done].
    apply klog_appends_inv, klog_init_inv. }
  split; [done|]. intros Hnul. unfold klog_dump. rewrite Hshow. simpl.
  by apply c_string_no_nul.
Qed.

(** C6 (as amended).  In every well-formed state (every reachable state is
    one, see [klog_reachable_inv]) a read of [buffer_available] bytes at
    offset 0 returns [buffer_available] and delivers the specified
    [readAt(0, available)], the window given by the one formula
    [window_index].  The two-branch copy of the dump assembles exactly
    these bytes in its temporary block, and the dump returns 0 and prints
    them up to, and without, their first zero byte; when none of them is
    zero the dump prints exactly what the read delivers. *)
Theorem klog_snapshot_is_read_as_text st temp ubuf :
  klog_inv st →
  Z.of_nat (length temp) = buffer_available st + 1 →
  buffer_available st ≤ Z.of_nat (length ubuf) →
  let r := fst (klog_read st ubuf (buffer_available st) 0) in
  read_ret r = buffer_available st ∧
  read_bytes r = readAt_spec st 0 (buffer_available st) ∧
  readAt_spec st 0 (buffer_available st) = klog_window st ∧
  take (Z.to_nat (buffer_available st)) (klog_proc_show_temp st temp)
  = read_bytes r ∧
  klog_proc_show st (Some temp) = ((0, c_string (read_bytes r)), st) ∧
  (x00 ∉ read_bytes r → klog_dump st temp = read_bytes r).
Proof.
  intros Hinv Htemp Hubuf r. pose proof Hinv as (Hbuf & Hhead & Havail).
  assert (read_ret r = buffer_available st ∧ read_bytes r = klog_window st)
    as [Hret Hread].
  { subst r. destruct (decide (buffer_available st = 0)) as [Hzero|Hsome].
    - unfold klog_read, klog_window. rewrite Hzero. done.
    - destruct (klog_read_ok st ubuf (buffer_available st) 0)
        as (-> & _ & _ & ->); [done | lia | lia | lia |].
      rewrite Z.min_id. done. }
  assert (readAt_spec st 0 (buffer_available st) = klog_window st) as Hspec.
  { unfold readAt_spec, klog_window.
    destruct (buffer_available st <=? 0) eqn:Hend.
    - apply Z.leb_le in Hend.
      by replace (buffer_available st) with 0 by lia.
    - by rewrite Z.sub_0_r, Z.min_id. }
  assert (klog_proc_show st (Some temp) = ((0, c_string (read_bytes r)), st))
    as Hshow.
  { rewrite Hread. by apply klog_proc_show_window. }
  split; [done|]. split; [by rewrite Hspec|]. split; [done|].
  split.
  - rewrite Hread, klog_proc_show_temp_window by done.
    rewrite take_app_length'; [done|]. rewrite length_klog_window. done.
  - split; [done|]. intros Hnul. unfold klog_dump. rewrite Hshow. simpl.
    by apply c_string_no_nul.
Qed.

(** C7 (as amended).  A write returns [-EFAULT] exactly when fewer bytes
    of the user buffer are readable than it takes, a read exactly when it
    starts inside the window and fewer bytes of the user buffer are
    writable than it delivers.  A write that returns [-EFAULT] leaves the
    file position, head and the count of valid bytes as they were, keeps
    the length of the ring and every byte of it outside the positions the
    write aimed at; a read that returns [-EFAULT] leaves the file position
    and the whole device state as they were. *)
Theorem klog_fault_keeps_head_and_count st ubuf len offset :
  klog_inv st →
  0 ≤ len →
  0 ≤ offset < 2 ^ 63 →
  (let r := klog_write st ubuf len offset in
   (fst (fst r) = - EFAULT
    ↔ Z.of_nat (length ubuf) < Z.min len buffer_size) ∧
   (fst (fst r) = - EFAULT →
    snd (fst r) = offset ∧
    buffer_head (snd r) = buffer_head st ∧
    buffer_available (snd r) = buffer_available st ∧
    length (klog_buffer (snd r)) = length (klog_buffer st) ∧
    ∀ i, 0 ≤ i < buffer_size →
         (∀ k, 0 ≤ k < Z.min len buffer_size →
               (buffer_head st + k) mod buffer_size ≠ i) →
         klog_buffer (snd r) !! Z.to_nat i = klog_buffer st !! Z.to_nat i)) ∧
  (let r := klog_read st ubuf len offset in
   (read_ret (fst r) = - EFAULT
    ↔ offset < buffer_available st
      ∧ Z.of_nat (length ubuf) < Z.min len (buffer_available st)) ∧
   (read_ret (fst r) = - EFAULT →
    read_fpos (fst r) = offset ∧ snd r = st)).
Proof.
  intros Hinv Hlen Hoff. pose proof Hinv as (Hbuf & Hhead & Havail).
  pose proof buffer_size_int as Hsz.
  split.
  - intros r. subst r.
    destruct (decide (Z.min len buffer_size ≤ Z.of_nat (length ubuf)))
      as [Hok|Hshort].
    + rewrite klog_write_ok by done. simpl. unfold EFAULT.
      split; [split; lia | lia].
    + destruct (klog_write_fault st ubuf len offset)
        as (kbuf & -> & Hlength & Hframe); [done | done | lia |].
      simpl. split; [split; [lia | done] | done].
  - intros r. subst r. split.
    + destruct (decide (offset < buffer_available st)) as [Hin|Hout].
      * destruct (decide (Z.min len (buffer_available st)
                          ≤ Z.of_nat (length ubuf))) as [Hok|Hshort].
        -- destruct (klog_read_ok st ubuf len offset) as (-> & _);
             [done | done | lia | done |].
           unfold EFAULT. split; lia.
        -- destruct (klog_read_fault st ubuf len offset) as (ubuf' & ->);
             [done | done | lia | lia |].
           simpl. split; [lia | done].
      * split; [|lia]. unfold klog_read.
        destruct (buffer_available st =? 0); [simpl; unfold EFAULT; lia|].
        rewrite (size_t_small offset) by lia.
        destruct (offset <? buffer_available st) eqn:Hlt; [lia|].
        simpl. unfold EFAULT. lia.
    + intros Hret. split; [|apply klog_read_state].
      destruct (decide (offset < buffer_available st
                        ∧ Z.of_nat (length ubuf)
                          < Z.min len (buffer_available st))) as [[Hin Hshort]|Hno].
      * destruct (klog_read_fault st ubuf len offset) as (ubuf' & ->);
          [done | done | lia | lia | done].
      * exfalso. revert Hret. unfold EFAULT.
        destruct (decide (offset < buffer_available st)) as [Hin|Hout].
        -- destruct (klog_read_ok st ubuf len offset) as (-> & _);
             [done | done | lia | lia | lia].
        -- unfold klog_read.
           destruct (buffer_available st =? 0); [simpl; lia|].
           rewrite (size_t_small offset) by lia.
           destruct (offset <? buffer_available st) eqn:Hlt; [lia|].
           simpl. lia.
Qed.

(** C8.  Every call keeps [0 <= head < buffer_size] and
    [0 <= available <= buffer_size] (and the ring [buffer_size] bytes
    long); over any sequence of calls the count of valid bytes never goes
    down, and an append of [n] accepted bytes raises it to
    [min (available + n) buffer_size]. *)
Theorem klog_run_invariant st calls :
  klog_inv st →
  Forall call_wf calls →
  klog_inv (klog_run st calls) ∧
  buffer_available st ≤ buffer_available (klog_run st calls) ∧
  ∀ data,
    buffer_available (klog_append (klog_run st calls) data)
    = Z.min (buffer_available (klog_run st calls)
             + Z.min (Z.of_nat (length data)) buffer_size) buffer_size.
Proof.
  intros Hinv Hwf.
  assert (klog_inv (klog_run st calls) ∧
          buffer_available st ≤ buffer_available (klog_run st calls))
    as [Hinv' Hmono].
  { revert st Hinv. unfold klog_run.
    induction Hwf as [|c calls Hc _ IH]; intros st Hinv; [done|].
    simpl. destruct (klog_step_inv st c Hinv Hc) as [Hinv1 Hmono1].
    destruct (IH _ Hinv1) as [Hinv2 Hmono2]. split; [done | lia]. }
  repeat split; try done; try apply Hinv'.
  intros data. by rewrite klog_append_eq.
Qed.

(** C9.  A read and a dump hand back the device state they were given:
    ring, head and count of valid bytes are untouched.  So a second read
    with the same arguments, straight after a read or a dump, returns what
    the first returned; and in a well-formed state the count, the file
    position and the bytes delivered are the same even when the second
    call passes another user buffer of the same size. *)
Theorem klog_read_pure st ubuf ubuf' len offset r :
  (snd (klog_read st ubuf len offset) = st ∧
   snd (klog_proc_show st r) = st) ∧
  (fst (klog_read (snd (klog_read st ubuf len offset)) ubuf len offset)
   = fst (klog_read st ubuf len offset) ∧
   fst (klog_read (snd (klog_proc_show st r)) ubuf len offset)
   = fst (klog_read st ubuf len offset)) ∧
  (klog_inv st → 0 ≤ len → 0 ≤ offset < 2 ^ 63 →
   length ubuf' = length ubuf →
   let r1 := fst (klog_read st ubuf len offset) in
   let r2 := fst (klog_read (snd (klog_read st ubuf len offset))
                            ubuf' len offset) in
   read_ret r2 = read_ret r1 ∧ read_fpos r2 = read_fpos r1 ∧
   read_bytes r2 = read_bytes r1).
Proof.
  rewrite klog_read_state, klog_proc_show_state.
  split; [done|]. split; [done|].
  intros Hinv Hlen Hoff Hsame r1 r2. subst r1 r2.
  pose proof Hinv as (Hbuf & Hhead & Havail).
  destruct (decide (offset < buffer_available st)) as [Hin|Hout].
  - destruct (decide (Z.min len (buffer_available st)
                      ≤ Z.of_nat (length ubuf))) as [Hok|Hshort].
    + destruct (klog_read_ok st ubuf len offset) as (-> & -> & _ & ->);
        [done | done | lia | done |].
      destruct (klog_read_ok st ubuf' len offset) as (-> & -> & _ & ->);
        [done | done | lia | lia |].
      done.
    + destruct (klog_read_fault st ubuf len offset) as (u1 & ->);
        [done | done | lia | lia |].
      destruct (klog_read_fault st ubuf' len offset) as (u2 & ->);
        [done | done | lia | lia |].
      done.
  - unfold klog_read.
    destruct (buffer_available st =? 0); [done|].
    rewrite (size_t_small offset) by lia.
    destruct (offset <? buffer_available st) eqn:Hlt; [lia | done].
Qed.

(** C10.  A write of length 0 returns 0 and leaves the ring, head and the
    count of valid bytes as they were. *)
Theorem klog_write_nothing st ubuf offset :
  klog_inv st →
  fst (fst (klog_write st ubuf 0 offset)) = 0 ∧
  snd (klog_write st ubuf 0 offset) = st.
Proof.
  intros Hinv. pose proof Hinv as (Hbuf & Hhead & Havail).
  pose proof buffer_size_int as Hsz.
  rewrite klog_write_ok by (done || lia).
  replace (Z.min 0 buffer_size) with 0 by lia. simpl. split; [done|].
  destruct st as [buf head avail]. simpl in *. f_equal.
  - apply list_eq; intros i. rewrite lookup_ring_put.
    by destruct (buf !! i).
  - rewrite Z.add_0_r. rewrite (mod_at 0); lia.
  - lia.
Qed.

(** * Further properties of the device *)

(** ** Pieces of the window *)

Lemma window_slice st pos n :
  klog_inv st →
  0 ≤ pos → 0 ≤ n → pos + n ≤ buffer_available st →
  (fun k => ring_byte st (window_index st (pos + k))) <$> seqZ 0 n
  = take (Z.to_nat n) (drop (Z.to_nat pos) (klog_window st)).
Proof.
  intros Hinv Hpos Hn Hfit. apply list_eq; intros i.
  destruct (decide (Z.of_nat i < n)) as [Hi|Hi].
  - rewrite list_lookup_fmap, lookup_seqZ_lt by done. simpl.
    rewrite lookup_take_lt, lookup_drop by lia.
    unfold klog_window. rewrite list_lookup_fmap, lookup_seqZ_lt by lia.
    simpl. do 3 f_equal. lia.
  - rewrite list_lookup_fmap, lookup_seqZ_ge by lia.
    by rewrite lookup_take_ge by lia.
Qed.

Lemma klog_read_eof st ubuf len pos :
  0 ≤ pos < 2 ^ 63 →
  buffer_available st ≤ pos →
  klog_read st ubuf len pos = (ReadResult 0 ubuf pos, st).
Proof.
  intros Hpos Hend. unfold klog_read.
  destruct (buffer_available st =? 0); [done|].
  rewrite (size_t_small pos) by lia.
  destruct (pos <? buffer_available st) eqn:Hlt; [lia | done].
Qed.

Lemma klog_read_seq_eof st ubuf len pos k :
  0 ≤ pos < 2 ^ 63 →
  buffer_available st ≤ pos →
  klog_read_seq st ubuf len pos k = ([], pos).
Proof.
  intros Hpos Hend. induction k as [|k IH]; [done|].
  simpl. rewrite klog_read_eof by done. simpl. by rewrite IH.
Qed.

(** One read of a chunk that fits into the rest of the window. *)
Lemma klog_read_chunk st ubuf len pos :
  klog_inv st →
  0 ≤ len → 0 ≤ pos →
  Z.min len (buffer_available st) ≤ Z.of_nat (length ubuf) →
  pos + Z.min len (buffer_available st) ≤ buffer_available st →
  let n := Z.min len (buffer_available st) in
  let r := fst (klog_read st ubuf len pos) in
  read_ret r = n ∧ read_fpos r = pos + n ∧
  read_bytes r = take (Z.to_nat n) (drop (Z.to_nat pos) (klog_window st)).
Proof.
  intros Hinv Hlen Hpos Hubuf Hfit n r. subst r.
  pose proof Hinv as (Hbuf & Hhead & Havail).
  pose proof buffer_size_int as Hsz. unfold INT_MAX in Hsz.
  destruct (decide (pos < buffer_available st)) as [Hin|Hout].
  - destruct (klog_read_ok st ubuf len pos) as (-> & -> & _ & ->);
      [done | done | lia | done |].
    repeat split. by apply window_slice; try lia.
  - rewrite klog_read_eof by lia. unfold read_bytes. simpl.
    replace n with 0 by lia. by rewrite Z.add_0_r.
Qed.

(** X1.  Reading the device in chunks.  [k] reads in a row of [len] bytes
    each, from position [pos] on, deliver the window from [pos] on, chunk
    after chunk ([n = min len available] bytes a time), as long as every
    chunk fits into what is left of the window; the position ends
    [k * n] further.  Once the position has reached the end of the window
    any further read delivers nothing and leaves the position where it
    is. *)
Theorem klog_read_seq_window st ubuf len pos k :
  klog_inv st →
  0 ≤ len → 0 ≤ pos →
  let n := Z.min len (buffer_available st) in
  n ≤ Z.of_nat (length ubuf) →
  pos + Z.of_nat k * n ≤ buffer_available st →
  klog_read_seq st ubuf len pos k
  = (take (Z.to_nat (Z.of_nat k * n))
          (drop (Z.to_nat pos) (klog_window st)),
     pos + Z.of_nat k * n) ∧
  (pos + Z.of_nat k * n = buffer_available st →
   ∀ j, klog_read_seq st ubuf len pos (k + j)
        = (drop (Z.to_nat pos) (klog_window st), buffer_available st)).
Proof.
  intros Hinv Hlen Hpos n Hubuf.
  pose proof Hinv as (Hbuf & Hhead & Havail).
  pose proof buffer_size_int as Hsz. unfold INT_MAX in Hsz.
  assert (0 ≤ n) as Hn by lia.
  revert pos Hpos. induction k as [|k IH]; intros pos Hpos Hfit.
  - split.
    + simpl. by rewrite Z.add_0_r.
    + intros Hend j. simpl. rewrite klog_read_seq_eof by lia.
      rewrite drop_ge by (rewrite length_klog_window; lia).
      f_equal. lia.
  - destruct (klog_read_chunk st ubuf len pos) as (Hret & Hfpos & Hbytes);
      [done | done | done | done | fold n; lia |].
    fold n in Hret, Hfpos, Hbytes.
    destruct (IH (pos + n)) as [IHk IHend]; [lia | lia |].
    assert (Z.to_nat (pos + n) = (Z.to_nat pos + Z.to_nat n)%nat) as Hsum by lia.
    split.
    + simpl. rewrite Hret. destruct (n <? 0) eqn:Hneg; [lia|].
      rewrite Hfpos, Hbytes, IHk. simpl. f_equal; [|lia].
      rewrite Hsum, <- drop_drop, take_take_drop. f_equal. lia.
    + intros Hend j. simpl. rewrite Hret. destruct (n <? 0) eqn:Hneg; [lia|].
      rewrite Hfpos, Hbytes, IHend by lia. simpl. f_equal.
      rewrite Hsum, <- drop_drop. apply take_drop.
Qed.

(** X2.  What was written can be read back.  After an append of [data], no
    longer than the ring, to any well-formed device, a read of
    [length data] bytes at the position [length data] before the end of
    the window returns [data]. *)
Theorem klog_write_read_round_trip st (data ubuf : list byte) :
  klog_inv st →
  Z.of_nat (length data) ≤ buffer_size →
  (length data ≤ length ubuf)%nat →
  let st' := klog_append st data in
  let len := Z.of_nat (length data) in
  let r := fst (klog_read st' ubuf len (buffer_available st' - len)) in
  read_ret r = len ∧ read_bytes r = data.
Proof.
  intros Hinv Hshort Hubuf st' len r.
  pose proof Hinv as (Hbuf & Hhead & Havail).
  pose proof buffer_size_int as Hsz. unfold INT_MAX in Hsz.
  pose proof (klog_append_inv st data Hinv) as Hinv'. fold st' in Hinv'.
  assert (buffer_available st' = Z.min (buffer_available st + len) buffer_size)
    as Havail'.
  { subst st'. rewrite klog_append_eq by done. simpl. subst len. lia. }
  destruct (klog_read_chunk st' ubuf len (buffer_available st' - len))
    as (Hret & _ & Hbytes); [done | lia | lia | lia | lia |].
  fold r in Hret, Hbytes. split; [lia|].
  rewrite Hbytes. replace (Z.min len (buffer_available st')) with len by lia.
  subst st'. rewrite klog_window_append by done.
  rewrite (take_ge data) by lia. unfold last_bytes.
  rewrite drop_drop, length_app, length_klog_window.
  rewrite drop_app_length'.
  - apply take_ge. lia.
  - rewrite length_klog_window. rewrite klog_append_eq in Havail' by done.
    simpl in Havail'. rewrite klog_append_eq by done. simpl. lia.
Qed.

(** X3.  Drop-oldest from any state.  After any appends to any well-formed
    device the dump returns 0 and prints, as a C string, the last
    [buffer_size] bytes of: the window before, followed by the leading
    [buffer_size] bytes of each input in order. *)
Theorem klog_dump_after_appends st datas temp :
  klog_inv st →
  let st' := klog_appends st datas in
  Z.of_nat (length temp) = buffer_available st' + 1 →
  klog_proc_show st' (Some temp)
  = ((0, c_string (last_bytes buffer_size
                     (klog_window st
                      ++ concat (take (Z.to_nat buffer_size) <$> datas)))),
     st').
Proof.
  intros Hinv st' Htemp.
  rewrite klog_proc_show_window; [| by apply klog_appends_inv | done].
  subst st'. by rewrite klog_window_appends.
Qed.

(** X4.  A write of at least [buffer_size] readable bytes returns
    [buffer_size], leaves head where it was, makes the ring full, and the
    window is then exactly the leading [buffer_size] bytes of the input:
    everything older is gone. *)
Theorem klog_write_fills_ring st data offset :
  klog_inv st →
  buffer_size ≤ Z.of_nat (length data) →
  let r := klog_write st data (Z.of_nat (length data)) offset in
  fst (fst r) = buffer_size ∧
  buffer_head (snd r) = buffer_head st ∧
  buffer_available (snd r) = buffer_size ∧
  klog_window (snd r) = take (Z.to_nat buffer_size) data.
Proof.
  intros Hinv Hlong r. pose proof Hinv as (Hbuf & Hhead & Havail).
  pose proof buffer_size_int as Hsz. unfold INT_MAX in Hsz.
  pose proof (klog_window_append st data Hinv) as Hwindow.
  unfold klog_append in Hwindow.
  assert (snd (klog_write st data (Z.of_nat (length data)) 0) = snd r) as Hsame.
  { subst r. by rewrite !klog_write_ok by (done || lia). }
  rewrite Hsame in Hwindow. rewrite Hwindow. clear Hwindow Hsame.
  subst r. rewrite klog_write_ok by (done || lia). simpl.
  replace (Z.min (Z.of_nat (length data)) buffer_size) with buffer_size by lia.
  repeat split.
  - rewrite (mod_at 1); lia.
  - lia.
  - unfold last_bytes. rewrite length_app, length_klog_window, length_take.
    apply drop_app_length'. rewrite length_klog_window. lia.
Qed.

(** X5.  Until the ring has filled up once it is used from its start.  In
    every reachable state with fewer than [buffer_size] valid bytes, head
    equals the count of valid bytes and the window is the leading part of
    the ring. *)
Theorem klog_reachable_unwrapped st :
  klog_reachable st →
  buffer_available st < buffer_size →
  buffer_head st = buffer_available st ∧
  klog_window st = take (Z.to_nat (buffer_available st)) (klog_buffer st).
Proof.
  intros Hreach Hroom. pose proof (klog_reachable_inv st Hreach) as Hinv.
  pose proof buffer_size_int as Hsz. unfold INT_MAX in Hsz.
  assert (buffer_available st < buffer_size →
          buffer_head st = buffer_available st) as Hshape.
  { destruct Hreach as (calls & Hwf & ->). unfold klog_run.
    assert (∀ st0, klog_inv st0 →
              (buffer_available st0 < buffer_size →
               buffer_head st0 = buffer_available st0) →
              buffer_available (foldl klog_step st0 calls) < buffer_size →
              buffer_head (foldl klog_step st0 calls)
              = buffer_available (foldl klog_step st0 calls)) as Hrun.
    { clear Hroom Hinv.
      induction Hwf as [|c calls Hc _ IH]; intros st0 Hinv0 Hshape0; [done|].
      simpl. apply IH; [by apply klog_step_inv|].
      pose proof Hinv0 as (Hbuf & Hhead & Havail).
      destruct c as [ubuf len offset|ubuf len offset|r]; simpl.
      - simpl in Hc.
        destruct (decide (Z.min len buffer_size ≤ Z.of_nat (length ubuf)))
          as [Hok|Hshort].
        + rewrite klog_write_ok by (done || lia). simpl. intros Hroom'.
          rewrite (mod_at 0); lia.
        + destruct (klog_write_fault st0 ubuf len offset) as (kbuf & -> & _);
            [done | lia | lia | done].
      - by rewrite klog_read_state.
      - by rewrite klog_proc_show_state. }
    apply Hrun; [apply klog_init_inv | done]. }
  split; [by apply Hshape|].
  pose proof Hinv as (Hbuf & Hhead & Havail).
  apply list_eq; intros k.
  destruct (decide (Z.of_nat k < buffer_available st)) as [Hk|Hk].
  - rewrite lookup_klog_window, lookup_take_lt by (done || lia).
    unfold window_index. rewrite Hshape by done.
    rewrite (mod_at 1) by lia. f_equal. lia.
  - rewrite lookup_ge_None_2 by (rewrite length_klog_window; lia).
    by rewrite lookup_take_ge by lia.
Qed.

Lemma c_string_length l : (length (c_string l) ≤ length l)%nat.
Proof.
  induction l as [|b l IH]; simpl; [done|].
  destruct (Byte.eqb b x00); simpl; lia.
Qed.

Lemma c_string_has_no_nul l : x00 ∉ c_string l.
Proof.
  induction l as [|b l IH]; simpl; [apply not_elem_of_nil|].
  destruct (Byte.eqb b x00) eqn:Hb; [apply not_elem_of_nil|].
  apply not_elem_of_cons. split; [|done].
  intros Heq. subst b. vm_compute in Hb. discriminate.
Qed.

(** X6.  The dump shows the window and nothing else.  Whatever the block
    [kmalloc] returned held before, the text of the dump is the window up
    to its first zero byte: it holds no zero byte, is at most
    [buffer_available] bytes long, and nothing of the block's old content
    or of the ring outside the window gets into it. *)
Theorem klog_dump_is_text_of_window st temp :
  klog_inv st →
  Z.of_nat (length temp) = buffer_available st + 1 →
  klog_dump st temp = c_string (klog_window st) ∧
  (x00 ∉ klog_dump st temp) ∧
  Z.of_nat (length (klog_dump st temp)) ≤ buffer_available st.
Proof.
  intros Hinv Htemp. pose proof Hinv as (_ & _ & Havail).
  unfold klog_dump. rewrite klog_proc_show_window by done. simpl.
  split; [done|]. split; [apply c_string_has_no_nul|].
  pose proof (c_string_length (klog_window st)) as Hlen.
  rewrite length_klog_window in Hlen. lia.
Qed.

(** X7.  A faulting write cannot spoil what it would not have dropped.  If
    the bytes the write was to take still fit beside the window
    ([available + min len buffer_size <= buffer_size]), a write that
    faults leaves the window, byte for byte, as it was. *)
Theorem klog_write_fault_keeps_window st ubuf len offset :
  klog_inv st →
  0 ≤ len →
  Z.of_nat (length ubuf) < Z.min len buffer_size →
  buffer_available st + Z.min len buffer_size ≤ buffer_size →
  fst (fst (klog_write st ubuf len offset)) = - EFAULT ∧
  klog_window (snd (klog_write st ubuf len offset)) = klog_window st.
Proof.
  intros Hinv Hlen Hshort Hroom. pose proof Hinv as (Hbuf & Hhead & Havail).
  pose proof buffer_size_int as Hsz. unfold INT_MAX in Hsz.
  destruct (klog_write_fault st ubuf len offset)
    as (kbuf & Heq & Hlength & Hframe); [done | done | done |].
  rewrite Heq. simpl. split; [done|].
  unfold klog_window. simpl. apply list_fmap_ext.
  intros i k Hk. apply lookup_seqZ in Hk as [-> Hi].
  unfold ring_byte, window_index. simpl. f_equal.
  apply Hframe; [apply mod_in_range|].
  intros j Hj Heq'. apply Z.cong_iff_0 in Heq'.
  replace (buffer_head st + j
           - (buffer_head st + buffer_size - buffer_available st
              + (0 + Z.of_nat i)))
    with (j + buffer_available st - Z.of_nat i - 1 * buffer_size)
    in Heq' by lia.
  rewrite (mod_at (-1)) in Heq' by lia. lia.
Qed.

(** X8.  A read stays inside the caller's request.  Whatever the offset and
    whether or not a copy faults, [klog_read] returns at most
    [min len buffer_available], keeps the length of the user buffer and
    leaves every byte of it from position [min len buffer_available] on as
    it was. *)
Theorem klog_read_stays_in_buffer st ubuf len offset :
  klog_inv st →
  0 ≤ len →
  let r := fst (klog_read st ubuf len offset) in
  length (read_ubuf r) = length ubuf ∧
  read_ret r ≤ Z.min len (buffer_available st) ∧
  ∀ i : nat, Z.min len (buffer_available st) ≤ Z.of_nat i →
             read_ubuf r !! i = ubuf !! i.
Proof.
  intros (Hbuf & Hhead & Havail) Hlen r. subst r.
  pose proof buffer_size_int as Hsz. unfold INT_MAX in Hsz.
  unfold klog_read.
  destruct (buffer_available st =? 0) eqn:Hzero;
    [simpl; split; [done | split; [lia | done]]|].
  apply Z.eqb_neq in Hzero.
  destruct (size_t offset <? buffer_available st);
    [|simpl; split; [done | split; [lia | done]]].
  rewrite size_t_buffer_size.
  pose proof (mod_in_range
    (size_t (size_t (size_t (buffer_head st + buffer_size)
                     - buffer_available st) + size_t offset))) as Hrp.
  set (rp := _ mod buffer_size) in *.
  set (n := Z.min len (buffer_available st)) in *.
  rewrite (size_t_small (rp + n)) by lia.
  rewrite (ssize_t_small n) by lia.
  destruct (rp + n >? buffer_size) eqn:Hwrap.
  - apply Z.gtb_lt in Hwrap.
    rewrite (size_t_small (buffer_size - rp)) by lia.
    rewrite (size_t_small (n - (buffer_size - rp))) by lia.
    unfold copy_to_user. cbv beta iota zeta.
    pose proof (accessible_range ubuf 0 (buffer_size - rp)).
    set (c1 := accessible ubuf 0 (buffer_size - rp)) in *.
    destruct (_ - c1 =? 0); cbn [negb].
    + pose proof (accessible_range
                    (memcpy ubuf 0 (klog_buffer st) rp c1) (buffer_size - rp)
                    (n - (buffer_size - rp))).
      set (c2 := accessible _ (buffer_size - rp) _) in *.
      destruct (_ - c2 =? 0); cbn [negb fst read_ret read_ubuf];
        (split; [by rewrite !length_memcpy|]);
        (split; [unfold EFAULT; lia|]);
        intros i Hi; by rewrite !lookup_memcpy_outside by lia.
    + cbn [fst read_ret read_ubuf].
      split; [by rewrite !length_memcpy|].
      split; [unfold EFAULT; lia|].
      intros i Hi. by rewrite !lookup_memcpy_outside by lia.
  - unfold copy_to_user. cbv beta iota zeta.
    pose proof (accessible_range ubuf 0 n).
    set (c1 := accessible ubuf 0 n) in *.
    destruct (_ - c1 =? 0); cbn [negb fst read_ret read_ubuf];
      (split; [by rewrite !length_memcpy|]);
      (split; [unfold EFAULT; lia|]);
      intros i Hi; by rewrite !lookup_memcpy_outside by lia.
Qed.

(** X9.  On a full ring a read that runs past the newest byte goes on with
    the oldest.  With [buffer_available = buffer_size], a read of [len]
    bytes at an offset inside the window delivers [min len buffer_size]
    bytes of the window written twice in a row, starting at the offset. *)
Theorem klog_read_full_ring_wraps st ubuf len offset :
  klog_inv st →
  buffer_available st = buffer_size →
  0 ≤ len →
  0 ≤ offset < buffer_size →
  Z.min len buffer_size ≤ Z.of_nat (length ubuf) →
  read_bytes (fst (klog_read st ubuf len offset))
  = take (Z.to_nat (Z.min len buffer_size))
         (drop (Z.to_nat offset) (klog_window st ++ klog_window st)).
Proof.
  intros Hinv Hfull Hlen Hoff Hubuf.
  pose proof buffer_size_int as Hsz. unfold INT_MAX in Hsz.
  destruct (klog_read_ok st ubuf len offset) as (_ & _ & _ & ->);
    [done | done | lia | lia |].
  rewrite Hfull. apply list_eq; intros i.
  destruct (decide (Z.of_nat i < Z.min len buffer_size)) as [Hi|Hi].
  - rewrite list_lookup_fmap, lookup_seqZ_lt by done. simpl.
    rewrite lookup_take_lt, lookup_drop by lia.
    rewrite ring_byte_lookup by (done || apply window_index_range).
    destruct (decide (offset + Z.of_nat i < buffer_size)) as [Hfst|Hsnd].
    + rewrite lookup_app_l by (rewrite length_klog_window; lia).
      rewrite lookup_klog_window by (done || lia).
      do 3 f_equal. lia.
    + rewrite lookup_app_r by (rewrite length_klog_window; lia).
      rewrite length_klog_window, lookup_klog_window by (done || lia).
      do 2 f_equal. unfold window_index.
      match goal with
      | |- ?a mod _ = ?b mod _ => replace a with (b + 1 * buffer_size) by lia
      end.
      apply Z_mod_plus_full.
  - rewrite list_lookup_fmap, lookup_seqZ_ge by lia.
    by rewrite lookup_take_ge by lia.
Qed.

(** X10.  Head and count follow from byte counts alone.  After any appends,
    with [total] the number of bytes they took (each input counts up to
    [buffer_size]), the count of valid bytes is
    [min buffer_size (available + total)] and head is
    [(head + total) mod buffer_size]. *)
Theorem klog_appends_counters st datas :
  klog_inv st →
  let total :=
    Z.of_nat (length (concat (take (Z.to_nat buffer_size) <$> datas))) in
  buffer_available (klog_appends st datas)
  = Z.min buffer_size (buffer_available st + total) ∧
  buffer_head (klog_appends st datas)
  = (buffer_head st + total) mod buffer_size.
Proof.
  intros Hinv total. split; [by apply buffer_available_appends|].
  subst total. pose proof buffer_size_int as Hsz.
  revert st Hinv. induction datas as [|d datas IH]; intros st Hinv.
  - simpl. destruct Hinv as (_ & Hhead & _).
    rewrite Z.add_0_r, (mod_at 0); lia.
  - change (klog_appends st (d :: datas))
      with (klog_appends (klog_append st d) datas).
    rewrite IH by by apply klog_append_inv.
    rewrite klog_append_eq by done. cbn [buffer_head].
    rewrite Zplus_mod_idemp_l. f_equal.
    rewrite fmap_cons. cbn [concat]. rewrite length_app, length_take. lia.
Qed.

(** X11.  Loading is all or nothing.  [klog_init] returns 0 exactly when all
    five kernel requests succeed; the module then holds the buffer, the
    character device number, the class, the device and the proc entry, and
    the device starts empty and well formed.  On every other path it
    returns a negative value, the resources it had taken are given back
    newest first, and none is left. *)
Theorem klog_init_call_all_or_nothing env :
  init_env_wf env →
  let ret := fst (fst (klog_init_call env)) in
  let calls := snd (fst (klog_init_call env)) in
  let dev := snd (klog_init_call env) in
  (ret = 0
   ↔ kmalloc_ok env = true ∧ 0 ≤ register_chrdev_ret env
     ∧ class_create_ret env = PtrOk ∧ device_create_ret env = PtrOk
     ∧ proc_create_ok env = true) ∧
  (ret = 0 →
   held [] calls = Some [ResProc; ResDevice; ResClass; ResChrdev; ResBuffer]
   ∧ dev = Some klog_init ∧ klog_inv klog_init) ∧
  (ret ≠ 0 → ret < 0 ∧ held [] calls = Some [] ∧ dev = None).
Proof.
  intros [Hclass Hdevice] ret calls dev. subst ret calls dev.
  pose proof klog_init_inv as Hinv.
  destruct env as [km major cls dvc prc]. simpl in Hclass, Hdevice.
  unfold klog_init_call, ENOMEM.
  cbn [kmalloc_ok register_chrdev_ret class_create_ret
       device_create_ret proc_create_ok].
  assert (∀ (ret : Z) (calls : list kcall) (dev : option klog) (P : Prop),
            (ret < 0 ∧ ¬ P ∧ held [] calls = Some [] ∧ dev = None) →
            (ret = 0 ↔ P) ∧
            (ret = 0 →
             held [] calls
             = Some [ResProc; ResDevice; ResClass; ResChrdev; ResBuffer]
             ∧ dev = Some klog_init ∧ klog_inv klog_init) ∧
            (ret ≠ 0 → ret < 0 ∧ held [] calls = Some [] ∧ dev = None))
    as Hfail.
  { intros ret calls dev P (Hneg & HP & Hheld & Hdev).
    split; [split; [lia | done]|]. split; [lia | done]. }
  destruct km; cbn [negb fst snd];
    [|apply Hfail; split; [lia | split; [intros (? & ? & ? & ? & ?); first [congruence | lia] | done]]].
  destruct (major <? 0) eqn:Hmajor; cbn [fst snd].
  { pose proof Hmajor as Hmajor'. apply Z.ltb_lt in Hmajor'. apply Hfail.
    split; [lia|]. split; [intros (? & ? & ? & ? & ?); first [congruence | lia]|].
    split; [simpl; by rewrite Hmajor | done]. }
  pose proof Hmajor as Hmajor'. apply Z.ltb_ge in Hmajor'.
  destruct cls as [|cerr]; simpl in Hclass; cbn [fst snd];
    [|apply Hfail; split; [lia|]; split; [intros (? & ? & ? & ? & ?); first [congruence | lia]|];
      split; [simpl; by rewrite Hmajor | done]].
  destruct dvc as [|derr]; simpl in Hdevice; cbn [fst snd];
    [|apply Hfail; split; [lia|]; split; [intros (? & ? & ? & ? & ?); first [congruence | lia]|];
      split; [simpl; by rewrite Hmajor | done]].
  destruct prc; cbn [negb fst snd];
    [|apply Hfail; split; [lia|]; split; [intros (? & ? & ? & ? & ?); first [congruence | lia]|];
      split; [simpl; by rewrite Hmajor | done]].
  split; [done|]. split; [|done]. intros _.
  split; [simpl; by rewrite Hmajor | done].
Qed.

End Klog.

(** * Concrete runs *)

Ltac int_range := unfold INT_MAX; lia.
Ltac inv_here := unfold klog_inv; repeat split; vm_compute; congruence.
Ltac decide_here := apply (bool_decide_unpack _); vm_compute; exact I.

(** C1 (the code departs from it).  The ring of 16 bytes after
    ABCDEFGHIJKLMNOP and QR were appended holds the window
    CDEFGHIJKLMNOPQR.  At offset 14 only QR is left, and the specified
    positional read of 4 bytes is QR; [klog_read] takes
    [min len buffer_available = 4] bytes, runs over the end of the window
    and returns QRCD and the count 4. *)
Theorem klog_read_runs_past_window_end :
  let st := klog_appends 16 (klog_init 16)
              [bytes "ABCDEFGHIJKLMNOP"; bytes "QR"] in
  klog_window 16 st = bytes "CDEFGHIJKLMNOPQR" ∧
  readAt_spec 16 st 14 4 = bytes "QR" ∧
  fst (klog_read 16 st (bytes "....") 4 14) = ReadResult 4 (bytes "QRCD") 18.
Proof. vm_compute. repeat split; reflexivity. Qed.

(** C2 (the code departs from it).  After ABCD was appended to a fresh
    ring of 16 bytes the window is ABCD, ring positions 0 to 3.  A read of
    4 bytes at offset 2 returns CD followed by the two bytes at ring
    positions 4 and 5, which no append has written: the result is not
    within the window. *)
Theorem klog_read_leaves_window :
  let st := klog_append 16 (klog_init 16) (bytes "ABCD") in
  let out := read_bytes (fst (klog_read 16 st (bytes "....") 4 2)) in
  klog_reachable 16 st ∧
  klog_window 16 st = bytes "ABCD" ∧
  out = [ring_byte st 2; ring_byte st 3; ring_byte st 4; ring_byte st 5] ∧
  ¬ within_window 16 st 2 out.
Proof.
  intros st out. repeat split.
  - exists [CallWrite (bytes "ABCD") 4 0]. split; [|reflexivity].
    repeat constructor; lia.
  - intros [rest Hrest]. vm_compute in Hrest. discriminate.
Qed.

(** The same read after a write that faulted half way: the bytes XY of the
    failed write sit behind the window and the read returns them. *)
Example klog_read_returns_failed_write :
  let st := klog_run 16 (klog_init 16)
              [CallWrite (bytes "ABCD") 4 0; CallWrite (bytes "XY") 4 4] in
  fst (klog_write 16 (klog_append 16 (klog_init 16) (bytes "ABCD"))
                  (bytes "XY") 4 4) = (- EFAULT, 4) ∧
  klog_window 16 st = bytes "ABCD" ∧
  read_bytes (fst (klog_read 16 st (bytes "....") 4 2)) = bytes "CDXY".
Proof. vm_compute. repeat split; reflexivity. Qed.

(** C3, the claim as worded fails: of ABC a ring of 2 bytes takes AB, not
    the last two bytes BC. *)
Lemma klog_write_not_trailing_bytes :
  let data := bytes "ABC" in
  let r := klog_write 2 (klog_init 2) data 3 0 in
  klog_buffer (snd r) = bytes "AB" ∧
  ¬ append_post 2 (last_bytes (Z.min 3 2) data) (klog_init 2)
      (fst (fst r)) (snd r).
Proof.
  intros data r. split; [reflexivity|].
  intros (_ & _ & Hstored & _).
  specialize (Hstored 0 ltac:(vm_compute; split; congruence)).
  vm_compute in Hstored. discriminate.
Qed.

Lemma klog_write_stores_leading_bytes_witness :
  let data := bytes "ABC" in
  let r := klog_write 2 (klog_init 2) data 3 7 in
  klog_inv 2 (klog_init 2) ∧
  append_post 2 (bytes "AB") (klog_init 2) (fst (fst r)) (snd r).
Proof.
  intros data r. split; [inv_here|].
  apply (klog_write_stores_leading_bytes 2 ltac:(int_range)
           (klog_init 2) data 7).
  inv_here.
Defined.

(** C4, the claim as worded fails: the dump is printed as a C string, so
    of the appended bytes A, NUL, B it shows A only. *)
Lemma klog_dump_stops_at_zero_byte :
  let datas := [[x41; x00; x42]] in
  let st := klog_appends 16 (klog_init 16) datas in
  Z.of_nat (length (concat datas)) ≤ 16 ∧
  klog_proc_show 16 st (Some (bytes "....")) = ((0, bytes "A"), st) ∧
  klog_dump 16 st (bytes "....") ≠ concat datas.
Proof.
  intros datas st. repeat split.
  - vm_compute. congruence.
  - vm_compute. congruence.
Qed.

Lemma klog_dump_within_capacity_witness :
  let datas := [bytes "AB"; bytes "CD"] in
  let st := klog_appends 16 (klog_init 16) datas in
  klog_proc_show 16 st (Some (bytes ".....")) = ((0, bytes "ABCD"), st) ∧
  klog_dump 16 st (bytes ".....") = bytes "ABCD".
Proof.
  intros datas st.
  destruct (klog_dump_within_capacity 16 ltac:(int_range) datas (bytes "....."))
    as [Hshow Hdump].
  - vm_compute. congruence.
  - reflexivity.
  - split; [exact Hshow|]. apply Hdump.
    decide_here.
Defined.

(** C5, the claim as worded fails: one append of ABC to a ring of 2 bytes
    keeps AB, and the dump shows AB, not the last two bytes BC. *)
Lemma klog_dump_keeps_leading_bytes :
  let datas := [bytes "ABC"] in
  let st := klog_appends 2 (klog_init 2) datas in
  2 < Z.of_nat (length (concat datas)) ∧
  klog_dump 2 st (bytes "...") = bytes "AB" ∧
  klog_dump 2 st (bytes "...") ≠ last_bytes 2 (concat datas).
Proof.
  intros datas st. repeat split.
  vm_compute. congruence.
Qed.

Lemma klog_dump_beyond_capacity_witness :
  let datas := [bytes "ABC"; bytes "DEF"] in
  let st := klog_appends 4 (klog_init 4) datas in
  klog_proc_show 4 st (Some (bytes ".....")) = ((0, bytes "CDEF"), st) ∧
  klog_dump 4 st (bytes ".....") = bytes "CDEF".
Proof.
  intros datas st.
  destruct (klog_dump_beyond_capacity 4 ltac:(int_range) datas (bytes "....."))
    as [Hshow Hdump].
  - repeat constructor; vm_compute; congruence.
  - reflexivity.
  - reflexivity.
  - split; [exact Hshow|]. apply Hdump. decide_here.
Defined.

(** C6, the claim as worded fails: after A, NUL, B were written to a
    fresh ring of 16 bytes, a read of [buffer_available = 3] bytes at
    offset 0 returns 3 and delivers A, NUL, B, while the dump, printed as
    a C string, shows A only. *)
Lemma klog_snapshot_differs_from_read :
  let st := klog_run 16 (klog_init 16) [CallWrite [x41; x00; x42] 3 0] in
  let r := fst (klog_read 16 st (bytes "...") (buffer_available st) 0) in
  klog_reachable 16 st ∧
  buffer_available st = 3 ∧
  read_ret r = 3 ∧
  read_bytes r = [x41; x00; x42] ∧
  readAt_spec 16 st 0 (buffer_available st) = [x41; x00; x42] ∧
  klog_proc_show 16 st (Some (bytes "....")) = ((0, bytes "A"), st) ∧
  klog_dump 16 st (bytes "....") ≠ read_bytes r.
Proof.
  intros st r. split.
  { exists [CallWrite [x41; x00; x42] 3 0]. split; [|reflexivity].
    repeat constructor; lia. }
  repeat split.
  vm_compute. congruence.
Qed.

Lemma klog_snapshot_is_read_as_text_witness :
  let st := klog_appends 4 (klog_init 4) [bytes "ABCD"; bytes "E"] in
  let r := fst (klog_read 4 st (bytes "....") 4 0) in
  st = Klog (bytes "EBCD") 1 4 ∧
  read_ret r = 4 ∧
  read_bytes r = bytes "BCDE" ∧
  take 4 (klog_proc_show_temp 4 st (bytes ".....")) = bytes "BCDE" ∧
  klog_proc_show 4 st (Some (bytes ".....")) = ((0, bytes "BCDE"), st) ∧
  klog_dump 4 st (bytes ".....") = bytes "BCDE".
Proof.
  intros st r.
  destruct (klog_snapshot_is_read_as_text 4 ltac:(int_range) st
              (bytes ".....") (bytes "...."))
    as (Hret & Hread & Hspec & Htake & Hshow & Hdump).
  - inv_here.
  - reflexivity.
  - vm_compute. congruence.
  - split; [reflexivity|]. split; [exact Hret|].
    split; [reflexivity|]. split; [exact Htake|].
    split; [exact Hshow|]. apply Hdump. decide_here.
Defined.

(** C7, the claim as worded fails: the ring of 4 bytes holds AB, head 2;
    a write of 4 bytes from a buffer of which only CD is readable copies CD
    to the end of the ring, faults on the rest and returns [-EFAULT] with
    the ring changed. *)
Lemma klog_write_fault_changes_ring :
  let st := klog_append 4 (klog_init 4) (bytes "AB") in
  let r := klog_write 4 st (bytes "CD") 4 0 in
  fst (fst r) = - EFAULT ∧
  klog_buffer (snd r) !! 2%nat = Some x43 ∧
  klog_buffer st !! 2%nat = Some x00 ∧
  snd r ≠ st.
Proof.
  intros st r. repeat split.
  vm_compute. congruence.
Qed.

Lemma klog_fault_keeps_head_and_count_witness :
  let st := klog_append 4 (klog_init 4) (bytes "AB") in
  let w := klog_write 4 st (bytes "CD") 4 0 in
  let r := klog_read 4 st (bytes ".") 2 0 in
  (fst (fst w) = - EFAULT ∧ read_ret (fst r) = - EFAULT) ∧
  (snd (fst w) = 0 ∧ buffer_head (snd w) = 2 ∧ buffer_available (snd w) = 2) ∧
  (read_fpos (fst r) = 0 ∧ snd r = st).
Proof.
  intros st w r.
  assert (klog_inv 4 st) as Hinv by inv_here.
  split; [split; reflexivity|].
  split.
  - destruct (klog_fault_keeps_head_and_count 4 ltac:(int_range) st
                (bytes "CD") 4 0 Hinv ltac:(lia) ltac:(lia))
      as [[_ Hwrite] _].
    destruct (Hwrite eq_refl) as (Hpos & Hhead & Havail & _).
    repeat split; assumption.
  - destruct (klog_fault_keeps_head_and_count 4 ltac:(int_range) st
                (bytes ".") 2 0 Hinv ltac:(lia) ltac:(lia))
      as [_ [_ Hread]].
    exact (Hread eq_refl).
Defined.

Lemma klog_run_invariant_witness :
  let calls := [CallWrite (bytes "ABC") 3 0; CallRead (bytes "..") 2 1;
                CallShow None; CallWrite (bytes "D") 3 3;
                CallWrite (bytes "EFG") 3 3] in
  let st := klog_run 4 (klog_init 4) calls in
  klog_inv 4 st ∧
  0 ≤ buffer_available st ∧
  buffer_available (klog_append 4 st (bytes "HI")) = 4.
Proof.
  intros calls st.
  destruct (klog_run_invariant 4 ltac:(int_range) (klog_init 4) calls)
    as (Hinv & Hmono & Happend).
  - inv_here.
  - repeat constructor; lia.
  - split; [exact Hinv|]. split; [exact Hmono|].
    rewrite Happend. vm_compute. reflexivity.
Defined.

Lemma klog_write_nothing_witness :
  let st := klog_append 4 (klog_init 4) (bytes "AB") in
  fst (fst (klog_write 4 st (bytes "CD") 0 5)) = 0 ∧
  snd (klog_write 4 st (bytes "CD") 0 5) = st.
Proof.
  intros st.
  apply (klog_write_nothing 4 ltac:(int_range) st (bytes "CD") 5).
  inv_here.
Defined.

Lemma klog_read_pure_witness :
  let st := klog_appends 16 (klog_init 16)
              [bytes "ABCDEFGHIJKLMNOP"; bytes "QR"] in
  let r1 := fst (klog_read 16 st (bytes "....") 4 0) in
  let r2 := fst (klog_read 16 (snd (klog_read 16 st (bytes "....") 4 0))
                           (bytes "____") 4 0) in
  snd (klog_read 16 st (bytes "....") 4 0) = st ∧
  read_bytes r1 = bytes "CDEF" ∧ read_bytes r2 = read_bytes r1.
Proof.
  intros st r1 r2.
  destruct (klog_read_pure 16 ltac:(int_range) st (bytes "....")
              (bytes "____") 4 0 None)
    as ((Hstate & _) & _ & Hsame).
  split; [exact Hstate|]. split; [reflexivity|].
  apply Hsame; [inv_here | lia | lia | reflexivity].
Defined.

(** The walk-through of the specification, capacity 16. *)
Example klog_walk_through :
  let s1 := klog_append 16 (klog_init 16) (bytes "ABCDEFGHIJKLMNOP") in
  let s2 := klog_append 16 s1 (bytes "QR") in
  (buffer_available s1 = 16 ∧ buffer_head s1 = 0) ∧
  klog_dump 16 s1 (bytes ".................") = bytes "ABCDEFGHIJKLMNOP" ∧
  klog_dump 16 s2 (bytes ".................") = bytes "CDEFGHIJKLMNOPQR" ∧
  read_bytes (fst (klog_read 16 s2 (bytes "....") 4 0)) = bytes "CDEF" ∧
  read_bytes (fst (klog_read 16 s2 (bytes "....") 4 16)) = [].
Proof. vm_compute. repeat split; reflexivity. Qed.

(** * Concrete runs of the further properties *)

Lemma klog_read_seq_window_witness :
  let st := klog_appends 16 (klog_init 16)
              [bytes "ABCDEFGHIJKLMNOP"; bytes "QR"] in
  klog_read_seq 16 st (bytes "....") 4 0 4 = (bytes "CDEFGHIJKLMNOPQR", 16) ∧
  klog_read_seq 16 st (bytes "....") 4 0 6 = (bytes "CDEFGHIJKLMNOPQR", 16).
Proof.
  intros st.
  destruct (klog_read_seq_window 16 ltac:(int_range) st (bytes "....") 4 0 4)
    as [Hchunks Hend].
  - inv_here.
  - lia.
  - lia.
  - vm_compute. congruence.
  - vm_compute. congruence.
  - split; [exact Hchunks | exact (Hend eq_refl 2%nat)].
Defined.

Lemma klog_write_read_round_trip_witness :
  let st := klog_append 8 (klog_init 8) (bytes "ABCDEF") in
  let st' := klog_append 8 st (bytes "GHIJ") in
  klog_buffer st' = bytes "IJCDEFGH" ∧
  read_bytes (fst (klog_read 8 st' (bytes "....") 4 4)) = bytes "GHIJ".
Proof.
  intros st st'. split; [reflexivity|].
  destruct (klog_write_read_round_trip 8 ltac:(int_range) st
              (bytes "GHIJ") (bytes "....")) as [_ Hbytes].
  - inv_here.
  - vm_compute. congruence.
  - vm_compute. lia.
  - exact Hbytes.
Defined.

Lemma klog_dump_after_appends_witness :
  let st := klog_append 4 (klog_init 4) (bytes "AB") in
  let st' := klog_appends 4 st [bytes "CDE"; bytes "FGHIJK"] in
  klog_proc_show 4 st' (Some (bytes ".....")) = ((0, bytes "FGHI"), st').
Proof.
  intros st st'.
  apply (klog_dump_after_appends 4 ltac:(int_range) st
           [bytes "CDE"; bytes "FGHIJK"] (bytes ".....")).
  - inv_here.
  - reflexivity.
Defined.

Lemma klog_write_fills_ring_witness :
  let st := klog_append 4 (klog_init 4) (bytes "AB") in
  let r := klog_write 4 st (bytes "CDEFGH") 6 0 in
  fst (fst r) = 4 ∧ buffer_head (snd r) = 2 ∧ buffer_available (snd r) = 4 ∧
  klog_window 4 (snd r) = bytes "CDEF".
Proof.
  intros st r.
  apply (klog_write_fills_ring 4 ltac:(int_range) st (bytes "CDEFGH") 0).
  - inv_here.
  - vm_compute. congruence.
Defined.

Lemma klog_reachable_unwrapped_witness :
  let st := klog_run 8 (klog_init 8)
              [CallWrite (bytes "ABC") 3 0; CallWrite (bytes "X") 2 3;
               CallRead (bytes "..") 2 0] in
  buffer_head st = 3 ∧ klog_window 8 st = bytes "ABC".
Proof.
  intros st.
  apply (klog_reachable_unwrapped 8 ltac:(int_range) st).
  - exists [CallWrite (bytes "ABC") 3 0; CallWrite (bytes "X") 2 3;
            CallRead (bytes "..") 2 0].
    split; [repeat constructor; lia | reflexivity].
  - vm_compute. reflexivity.
Defined.

Lemma klog_dump_is_text_of_window_witness :
  let st := klog_append 8 (klog_init 8) [x41; x42; x00; x43] in
  klog_dump 8 st (bytes "#####") = bytes "AB" ∧
  (x00 ∉ klog_dump 8 st (bytes "#####")) ∧
  Z.of_nat (length (klog_dump 8 st (bytes "#####"))) ≤ 4.
Proof.
  intros st.
  apply (klog_dump_is_text_of_window 8 ltac:(int_range) st (bytes "#####")).
  - inv_here.
  - reflexivity.
Defined.

Lemma klog_write_fault_keeps_window_witness :
  let st := klog_append 8 (klog_init 8) (bytes "ABC") in
  let r := klog_write 8 st (bytes "XY") 4 3 in
  fst (fst r) = - EFAULT ∧ klog_window 8 (snd r) = bytes "ABC".
Proof.
  intros st r.
  apply (klog_write_fault_keeps_window 8 ltac:(int_range) st (bytes "XY") 4 3).
  - inv_here.
  - lia.
  - vm_compute. reflexivity.
  - vm_compute. congruence.
Defined.

Lemma klog_read_stays_in_buffer_witness :
  let st := klog_append 8 (klog_init 8) (bytes "ABC") in
  let r := fst (klog_read 8 st (bytes "........") 5 1) in
  read_ubuf r = bytes "BC" ++ [x00] ++ bytes "....." ∧
  read_ret r ≤ 3 ∧
  read_ubuf r !! 3%nat = Some x2e.
Proof.
  intros st r.
  destruct (klog_read_stays_in_buffer 8 ltac:(int_range) st
              (bytes "........") 5 1) as (_ & Hret & Hrest).
  - inv_here.
  - lia.
  - split; [reflexivity|]. split; [exact Hret|].
    exact (Hrest 3%nat ltac:(vm_compute; congruence)).
Defined.

Lemma klog_read_full_ring_wraps_witness :
  let st := klog_appends 16 (klog_init 16)
              [bytes "ABCDEFGHIJKLMNOP"; bytes "QR"] in
  read_bytes (fst (klog_read 16 st (bytes "....") 4 14)) = bytes "QRCD".
Proof.
  intros st.
  apply (klog_read_full_ring_wraps 16 ltac:(int_range) st (bytes "....") 4 14).
  - inv_here.
  - reflexivity.
  - lia.
  - lia.
  - vm_compute. congruence.
Defined.

Lemma klog_appends_counters_witness :
  let st := klog_append 4 (klog_init 4) (bytes "AB") in
  buffer_available (klog_appends 4 st [bytes "CDE"; bytes "FGHIJK"]) = 4 ∧
  buffer_head (klog_appends 4 st [bytes "CDE"; bytes "FGHIJK"]) = 1.
Proof.
  intros st.
  apply (klog_appends_counters 4 ltac:(int_range) st
           [bytes "CDE"; bytes "FGHIJK"]).
  inv_here.
Defined.

Lemma klog_init_call_all_or_nothing_witness :
  let env := InitEnv true 240 PtrOk (PtrErr (- ENOMEM)) true in
  fst (fst (klog_init_call 16 env)) = - ENOMEM ∧
  held [] (snd (fst (klog_init_call 16 env))) = Some [] ∧
  snd (klog_init_call 16 env) = None.
Proof.
  intros env.
  destruct (klog_init_call_all_or_nothing 16 ltac:(int_range) env)
    as (_ & _ & Hfail).
  - split; [exact I | subst env; simpl; unfold ENOMEM; lia].
  - split; [reflexivity|].
    destruct Hfail as (_ & Hheld & Hdev); [vm_compute; congruence|].
    split; [exact Hheld | exact Hdev].
Defined.

(** * The voting demonstration: properties of [cast_vote] *)

Lemma c_int_small x : - 2 ^ 31 ≤ x < 2 ^ 31 → c_int x = x.
Proof. intros Hx. unfold c_int. rewrite Z.mod_small; lia. Qed.

Lemma on_record (l : list Z) v :
  existsb (fun id => id =? v) l = true ↔ v ∈ l.
Proof.
  induction l as [|x l IH]; simpl.
  - split; [done | by intros ?%elem_of_nil].
  - rewrite orb_true_iff, IH, elem_of_cons, Z.eqb_eq.
    split; intros [Heq|Hin]; auto.
Qed.

Lemma not_on_record (l : list Z) v :
  existsb (fun id => id =? v) l = false ↔ v ∉ l.
Proof.
  rewrite <- on_record. by destruct (existsb _ l).
Qed.

Lemma tally_alter (l : list Z) i x f :
  l !! i = Some x →
  foldr Z.add 0 (alter f i l) = foldr Z.add 0 l - x + f x.
Proof.
  revert i. induction l as [|y l IH]; intros [|i] Hi; simplify_eq/=.
  - lia.
  - rewrite (IH i) by done. lia.
Qed.

Lemma tally_bounds_entry (l : list Z) i x :
  Forall (fun v => 0 ≤ v) l → l !! i = Some x → 0 ≤ x ≤ foldr Z.add 0 l.
Proof.
  intros Hall. revert i. induction Hall as [|y l Hy Hall IH];
    intros [|i] Hi; simplify_eq/=.
  - assert (0 ≤ foldr Z.add 0 l); [|lia].
    clear IH. induction Hall; simpl; lia.
  - specialize (IH i Hi). lia.
Qed.

Lemma not_rejected (l : list Z) v c n :
  ¬ (v ∈ l ∨ ¬ (0 ≤ c < n)) → (v ∉ l) ∧ 0 ≤ c < n.
Proof.
  intros Hacc. split; [intros Hin; apply Hacc; by left|].
  destruct (decide (0 ≤ c < n)) as [|Hout]; [done|].
  exfalso. apply Hacc. by right.
Qed.

(** What an accepted vote stores. *)
Lemma cast_vote_accepted d v c :
  v ∉ recorded d →
  0 ≤ c < candidate_count d →
  cast_vote d v c
  = (MsgVoted v (default EmptyString (candidate_names d !! Z.to_nat c)),
     MkVotingData (candidate_count d) (candidate_names d)
       (alter (fun x => c_int (x + 1)) (Z.to_nat c) (votes d))
       (c_int (total_votes d + 1))
       (if voted_count d <? MAX_VOTERS
        then <[Z.to_nat (voted_count d) := v]> (voted_ids d)
        else voted_ids d)
       (if voted_count d <? MAX_VOTERS
        then c_int (voted_count d + 1) else voted_count d)).
Proof.
  intros Hnew Hc. unfold cast_vote. fold (recorded d).
  rewrite (proj2 (not_on_record _ _) Hnew).
  destruct (c <? 0) eqn:Hneg; [lia|].
  destruct (c >=? candidate_count d) eqn:Hbig; [lia|]. simpl.
  by destruct (voted_count d <? MAX_VOTERS).
Qed.

Lemma cast_vote_rejected d v c :
  v ∈ recorded d ∨ ¬ (0 ≤ c < candidate_count d) →
  snd (cast_vote d v c) = d ∧ is_voted (fst (cast_vote d v c)) = false.
Proof.
  intros Hwhy. unfold cast_vote. fold (recorded d).
  destruct (existsb _ (recorded d)) eqn:Hrec; [done|].
  apply not_on_record in Hrec.
  destruct (c <? 0) eqn:Hneg; [done|].
  destruct (c >=? candidate_count d) eqn:Hbig; [done|].
  destruct Hwhy as [?|Hout]; [done|]. lia.
Qed.

Lemma recorded_after_vote d v :
  table_ok d →
  voted_count d < MAX_VOTERS →
  take (Z.to_nat (c_int (voted_count d + 1)))
       (<[Z.to_nat (voted_count d) := v]> (voted_ids d))
  = recorded d ++ [v].
Proof.
  intros [Hlen Hcount] Hroom. unfold MAX_VOTERS in *.
  rewrite c_int_small by lia.
  replace (Z.to_nat (voted_count d + 1)) with (S (Z.to_nat (voted_count d)))
    by lia.
  erewrite take_S_r by (apply list_lookup_insert_eq; lia).
  by rewrite take_insert_ge by lia.
Qed.

Lemma cast_vote_table_ok d v c :
  table_ok d → table_ok (snd (cast_vote d v c)).
Proof.
  intros Hok. pose proof Hok as [Hlen Hcount].
  destruct (decide (v ∈ recorded d ∨ ¬ (0 ≤ c < candidate_count d)))
    as [Hrej|Hacc].
  - by rewrite (proj1 (cast_vote_rejected d v c Hrej)).
  - apply not_rejected in Hacc as [Hnew Hc].
    rewrite cast_vote_accepted by done.
    unfold table_ok, MAX_VOTERS in *. simpl.
    destruct (voted_count d <? 1000) eqn:Hroom; [|done].
    apply Z.ltb_lt in Hroom.
    rewrite length_insert, c_int_small by lia. lia.
Qed.

Lemma cast_vote_keeps_record d v c w :
  table_ok d → w ∈ recorded d → w ∈ recorded (snd (cast_vote d v c)).
Proof.
  intros Hok Hw.
  destruct (decide (v ∈ recorded d ∨ ¬ (0 ≤ c < candidate_count d)))
    as [Hrej|Hacc].
  - by rewrite (proj1 (cast_vote_rejected d v c Hrej)).
  - apply not_rejected in Hacc as [Hnew Hc].
    rewrite cast_vote_accepted by done.
    unfold recorded at 1. simpl.
    destruct (voted_count d <? MAX_VOTERS) eqn:Hroom; [|done].
    apply Z.ltb_lt in Hroom.
    rewrite recorded_after_vote by done. apply elem_of_app. by left.
Qed.

Lemma cast_vote_inv d v c :
  voting_inv d →
  total_votes d < INT_MAX →
  voting_inv (snd (cast_vote d v c)) ∧
  total_votes (snd (cast_vote d v c))
  = total_votes d + (if is_voted (fst (cast_vote d v c)) then 1 else 0).
Proof.
  intros Hinv Hroom.
  destruct (decide (v ∈ recorded d ∨ ¬ (0 ≤ c < candidate_count d)))
    as [Hrej|Hacc].
  - destruct (cast_vote_rejected d v c Hrej) as [-> ->].
    split; [done | lia].
  - apply not_rejected in Hacc as [Hnew Hc].
    rewrite cast_vote_accepted by done. cbn [fst snd is_voted].
    destruct Hinv as (Hcc & Hvotes & Hids & Hcount & Hdup & Hpos & Htally
                      & Hle & Heq).
    unfold INT_MAX, MAX_CANDIDATES, MAX_VOTERS in *.
    destruct (lookup_lt_is_Some_2 (votes d) (Z.to_nat c)) as [x Hx]; [lia|].
    pose proof (tally_bounds_entry _ _ _ Hpos Hx) as Hxb.
    unfold tally in Htally.
    rewrite (c_int_small (total_votes d + 1)) by lia.
    split; [|done].
    unfold voting_inv, recorded, tally, MAX_CANDIDATES, MAX_VOTERS.
    cbn [candidate_count votes total_votes voted_ids voted_count].
    rewrite length_alter, (tally_alter _ _ x) by done.
    rewrite (c_int_small (x + 1)) by lia.
    assert (Forall (fun v0 => 0 ≤ v0)
              (alter (fun x0 => c_int (x0 + 1)) (Z.to_nat c) (votes d)))
      as Hpos'.
    { apply Forall_alter; [done|]. intros y Hy Hy0.
      pose proof (tally_bounds_entry _ _ _ Hpos Hy).
      rewrite c_int_small; lia. }
    destruct (voted_count d <? 1000) eqn:Hfull.
    + apply Z.ltb_lt in Hfull.
      rewrite recorded_after_vote by (done || (split; unfold MAX_VOTERS; lia)).
      rewrite length_insert, c_int_small by lia.
      repeat split; try lia; try done.
      apply NoDup_app. split; [done|]. split; [|apply NoDup_singleton].
      intros y Hy ->%list_elem_of_singleton. done.
    + apply Z.ltb_ge in Hfull. repeat split; try lia; try done.
Qed.

(** X12.  The totals add up.  From a structure in which they do, and as
    long as the total stays within [int], any calls of [cast_vote] leave
    the sum of the candidates' tallies equal to [total_votes], and
    [total_votes] has grown by exactly the number of votes that were
    accepted; rejected calls count for nothing. *)
Theorem cast_votes_keep_tally d calls :
  voting_inv d →
  total_votes d + Z.of_nat (length calls) ≤ INT_MAX →
  let d' := cast_votes d calls in
  voting_inv d' ∧
  tally d' = total_votes d' ∧
  total_votes d'
  = total_votes d
    + Z.of_nat (length (filter (fun m => is_voted m = true)
                               (cast_vote_messages d calls))).
Proof.
  revert d. induction calls as [|[v c] calls IH]; intros d Hinv Hroom d'.
  - subst d'. simpl. split; [done|]. split; [apply Hinv | simpl; lia].
  - subst d'. simpl in Hroom.
    destruct (cast_vote_inv d v c Hinv) as [Hinv1 Htotal1]; [lia|].
    cbn [cast_votes foldl cast_vote_messages fst snd].
    destruct (IH (snd (cast_vote d v c)) Hinv1) as (Hinv2 & Htally2 & Htotal2).
    { rewrite Htotal1. destruct (is_voted _); lia. }
    unfold cast_votes in *. split; [done|]. split; [done|].
    rewrite Htotal2, Htotal1, filter_cons.
    destruct (is_voted (fst (cast_vote d v c))) eqn:Hvoted.
    + rewrite decide_True by done. simpl. lia.
    + rewrite decide_False by done. lia.
Qed.

Lemma cast_votes_table_ok d calls :
  table_ok d → table_ok (cast_votes d calls).
Proof.
  revert d. induction calls as [|[v c] calls IH]; intros d Hok; [done|].
  apply IH. by apply cast_vote_table_ok.
Qed.

Lemma cast_votes_keep_record d calls w :
  table_ok d → w ∈ recorded d → w ∈ recorded (cast_votes d calls).
Proof.
  revert d. induction calls as [|[v c] calls IH]; intros d Hok Hw; [done|].
  apply IH; [by apply cast_vote_table_ok | by apply cast_vote_keeps_record].
Qed.

(** X13.  One voter, one vote, while the table has room.  If a vote of
    voter [v] is accepted at a time when fewer than [MAX_VOTERS] voters are
    on record, then after any further calls every call of [cast_vote] for
    [v], whatever the candidate, answers "already voted" and changes
    nothing. *)
Theorem cast_vote_once d v c calls c' :
  table_ok d →
  voted_count d < MAX_VOTERS →
  is_voted (fst (cast_vote d v c)) = true →
  let d' := cast_votes (snd (cast_vote d v c)) calls in
  cast_vote d' v c' = (MsgAlreadyVoted v, d').
Proof.
  intros Hok Hroom Hvoted d'.
  assert (v ∈ recorded (snd (cast_vote d v c))) as Hrec.
  { destruct (decide (v ∈ recorded d ∨ ¬ (0 ≤ c < candidate_count d)))
      as [Hrej|Hacc].
    - destruct (cast_vote_rejected d v c Hrej) as [_ Hno]. congruence.
    - apply not_rejected in Hacc as [Hnew Hc].
      rewrite cast_vote_accepted by done. unfold recorded. simpl.
      rewrite (proj2 (Z.ltb_lt _ _) Hroom).
      rewrite recorded_after_vote by done.
      apply elem_of_app. right. by apply list_elem_of_singleton. }
  assert (v ∈ recorded d') as Hrec'.
  { subst d'. apply cast_votes_keep_record; [|done].
    by apply cast_vote_table_ok. }
  unfold cast_vote. fold (recorded d').
  by rewrite (proj2 (on_record _ _) Hrec').
Qed.

(** X14.  Once the table is full nobody new is remembered.  With
    [MAX_VOTERS] voters on record, a vote of a voter who is not on record
    for an existing candidate is accepted and counted, the voter is not
    put on record, and the same voter's next vote is accepted and counted
    again. *)
Theorem cast_vote_full_table d v c :
  table_ok d →
  voted_count d = MAX_VOTERS →
  v ∉ recorded d →
  0 ≤ c < candidate_count d →
  total_votes d + 2 ≤ INT_MAX →
  0 ≤ total_votes d →
  let r1 := cast_vote d v c in
  let r2 := cast_vote (snd r1) v c in
  is_voted (fst r1) = true ∧ is_voted (fst r2) = true ∧
  recorded (snd r2) = recorded d ∧
  total_votes (snd r2) = total_votes d + 2.
Proof.
  intros Hok Hfull Hnew Hc Hroom Hpos r1 r2. subst r1 r2.
  unfold INT_MAX in Hroom.
  pose proof Hnew as Hnew'. unfold recorded in Hnew'. rewrite Hfull in Hnew'.
  rewrite (cast_vote_accepted d v c) by done.
  rewrite Hfull. change (MAX_VOTERS <? MAX_VOTERS) with false.
  cbn [fst snd is_voted].
  rewrite cast_vote_accepted; [|exact Hnew'|done].
  cbn [fst snd is_voted voted_count voted_ids total_votes].
  change (MAX_VOTERS <? MAX_VOTERS) with false.
  unfold recorded. cbn [voted_count voted_ids total_votes].
  rewrite Hfull. repeat split.
  rewrite (c_int_small (total_votes d + 1)) by lia.
  rewrite c_int_small by lia. lia.
Qed.

Lemma voting_init_inv n names :
  0 ≤ n ≤ MAX_CANDIDATES → voting_inv (voting_init n names).
Proof.
  intros Hn. unfold voting_inv, voting_init, recorded, tally. simpl.
  repeat split; try lia; try done.
  - apply NoDup_nil_2.
  - repeat constructor; lia.
Qed.

Lemma cast_votes_keep_tally_witness :
  let d := voting_init 3 ["Ada"; "Bob"; "Cy"]%string in
  let calls := [(1, 0); (2, 1); (1, 2); (3, 7); (4, 0)] in
  tally (cast_votes d calls) = 3 ∧
  total_votes (cast_votes d calls) = 3 ∧
  take 3 (votes (cast_votes d calls)) = [2; 1; 0].
Proof.
  intros d calls.
  destruct (cast_votes_keep_tally d calls) as (_ & Htally & Htotal).
  - apply voting_init_inv. unfold MAX_CANDIDATES. lia.
  - unfold INT_MAX. simpl. lia.
  - split; [rewrite Htally; exact Htotal|]. split; [exact Htotal | reflexivity].
Defined.

Lemma cast_vote_once_witness :
  let d := voting_init 3 ["Ada"; "Bob"; "Cy"]%string in
  let d' := cast_votes (snd (cast_vote d 7 1)) [(8, 0); (9, 2)] in
  cast_vote d' 7 0 = (MsgAlreadyVoted 7, d') ∧ total_votes d' = 3.
Proof.
  intros d d'. split; [|reflexivity].
  apply (cast_vote_once d 7 1 [(8, 0); (9, 2)] 0).
  - split; [reflexivity | simpl; unfold MAX_VOTERS; lia].
  - reflexivity.
  - reflexivity.
Defined.

Lemma cast_vote_full_table_witness :
  let d := MkVotingData 2 ["Ada"; "Bob"]%string
             ([600; 400] ++ replicate 8 0) 1000 (seqZ 1 1000) 1000 in
  let r1 := cast_vote d 5000 1 in
  let r2 := cast_vote (snd r1) 5000 1 in
  total_votes (snd r2) = 1002 ∧ recorded (snd r2) = recorded d.
Proof.
  intros d r1 r2.
  destruct (cast_vote_full_table d 5000 1) as (_ & _ & Hrec & Htotal).
  - split; [reflexivity | simpl; unfold MAX_VOTERS; lia].
  - reflexivity.
  - apply (bool_decide_unpack _). vm_compute. exact I.
  - simpl. lia.
  - unfold INT_MAX. simpl. lia.
  - simpl. lia.
  - split; [exact Htotal | exact Hrec].
Defined.

(** * The voting demonstration: properties of the entry protocol *)

Lemma rw_count_insert f l i p q :
  l !! i = Some p →
  rw_count f (<[i:=q]> l)
  = rw_count f l - (if f p then 1 else 0) + (if f q then 1 else 0).
Proof.
  revert i. induction l as [|x l IH]; intros [|i] Hi; simplify_eq/=.
  - lia.
  - rewrite (IH i) by done. lia.
Qed.

Lemma rw_count_range f l : 0 ≤ rw_count f l ≤ Z.of_nat (length l).
Proof. induction l as [|x l IH]; simpl; [lia|]. destruct (f x); lia. Qed.

Lemma rw_count_elem f l i p :
  l !! i = Some p → f p = true → 1 ≤ rw_count f l.
Proof.
  revert i. induction l as [|x l IH]; intros [|i] Hi Hp; simplify_eq/=.
  - rewrite Hp. pose proof (rw_count_range f l). lia.
  - specialize (IH i Hi Hp). destruct (f x); lia.
Qed.

Lemma rw_count_two f l i j p q :
  i ≠ j → l !! i = Some p → l !! j = Some q →
  f p = true → f q = true → 2 ≤ rw_count f l.
Proof.
  intros Hne Hi Hj Hp Hq. revert i j Hne Hi Hj.
  induction l as [|x l IH]; intros [|i] [|j] Hne Hi Hj; simplify_eq/=.
  - rewrite Hp. pose proof (rw_count_elem f l j q Hj Hq). lia.
  - rewrite Hq. pose proof (rw_count_elem f l i p Hi Hp). lia.
  - assert (i ≠ j) as Hne' by congruence.
    specialize (IH i j Hne' Hi Hj). destruct (f x); lia.
Qed.

(** Who waits for or gives back [wrt] on behalf of the readers holds
    [read_count_sem], as do the readers at the four other statements
    between its [sem_wait] and its [sem_post]. *)
Lemma rw_count_holders l :
  rw_count holds_read_count l
  = rw_count (fun pc => bool_decide (pc = ReaderEnterWrt)) l
    + rw_count (fun pc => bool_decide (pc = ReaderExitWrt)) l
    + rw_count (fun pc => holds_read_count pc
                          && negb (bool_decide (pc = ReaderEnterWrt))
                          && negb (bool_decide (pc = ReaderExitWrt))) l.
Proof.
  induction l as [|x l IH]; simpl; [lia|]. destruct x; simpl; lia.
Qed.

Ltac rw_tests :=
  repeat match goal with
  | H : (_ <? _) = true |- _ => apply Z.ltb_lt in H
  | H : (_ <? _) = false |- _ => apply Z.ltb_ge in H
  | H : (_ =? _) = true |- _ => apply Z.eqb_eq in H
  | H : (_ =? _) = false |- _ => apply Z.eqb_neq in H
  end.

Ltac rw_decide :=
  repeat match goal with
  | |- context [bool_decide (?a = ?b)] =>
      let v := eval vm_compute in (bool_decide (a = b)) in
      change (bool_decide (a = b)) with v
  end.

Lemma rw_step_inv s i call s' :
  rw_inv s → rw_step s i call = Some s' → rw_inv s'.
Proof.
  intros (Hlen & Hwrt & Hrc & Hmutex & Hcount & Hgroup & Henter & Hexit) Hstep.
  unfold rw_step in Hstep.
  destruct (rw_threads s !! i) as [pc|] eqn:Hpc; [|done].
  pose proof (rw_count_holders (rw_threads s)) as Hmovers.
  pose proof (rw_count_range
                (fun pc => holds_read_count pc
                           && negb (bool_decide (pc = ReaderEnterWrt))
                           && negb (bool_decide (pc = ReaderExitWrt)))
                (rw_threads s)) as Hr6.
  pose proof (rw_count_range holds_read_count (rw_threads s)) as Hr1.
  pose proof (rw_count_range counted_reader (rw_threads s)) as Hr2.
  pose proof (rw_count_range holds_wrt (rw_threads s)) as Hr3.
  pose proof (rw_count_range (fun pc => bool_decide (pc = ReaderEnterWrt))
                (rw_threads s)) as Hr4.
  pose proof (rw_count_range (fun pc => bool_decide (pc = ReaderExitWrt))
                (rw_threads s)) as Hr5.
  assert (∀ f, f pc = true → 1 ≤ rw_count f (rw_threads s)) as Hhere
    by (intros f; by apply rw_count_elem with i).
  assert (c_int (reader_count s + 1) = reader_count s + 1) as Hinc
    by (apply c_int_small; lia).
  assert (c_int (reader_count s - 1) = reader_count s - 1) as Hdec
    by (apply c_int_small; lia).
  unfold readers_hold_wrt in Hgroup.
  destruct pc; cbv zeta in Hstep; rewrite ?Hinc, ?Hdec in Hstep;
    repeat case_match; simplify_eq;
    unfold rw_inv, readers_hold_wrt;
    cbn [wrt read_count_sem reader_count rw_threads];
    rewrite ?(rw_count_insert _ _ _ _ _ Hpc), ?length_insert;
    cbn [holds_read_count counted_reader holds_wrt andb negb];
    rw_decide; cbn [andb negb];
    try (pose proof (Hhere holds_read_count eq_refl));
    try (pose proof (Hhere counted_reader eq_refl));
    try (pose proof (Hhere holds_wrt eq_refl));
    try (pose proof (Hhere (fun pc => bool_decide (pc = ReaderEnterWrt))
                       eq_refl));
    try (pose proof (Hhere (fun pc => bool_decide (pc = ReaderExitWrt))
                       eq_refl));
    try (pose proof (Hhere
                       (fun pc => holds_read_count pc
                                  && negb (bool_decide (pc = ReaderEnterWrt))
                                  && negb (bool_decide (pc = ReaderExitWrt)))
                       eq_refl));
    rw_tests;
    repeat case_match; rw_tests; repeat split; lia.
Qed.

Lemma rw_count_none f n : f Idle = false → rw_count f (replicate n Idle) = 0.
Proof. intros Hf. induction n as [|n IH]; simpl; [done|]. rewrite Hf. lia. Qed.

Lemma rw_count_some f l :
  0 < rw_count f l → ∃ k p, l !! k = Some p ∧ f p = true.
Proof.
  induction l as [|x l IH]; simpl; [lia|]. intros Hpos.
  destruct (f x) eqn:Hx.
  - by exists 0%nat, x.
  - destruct IH as (k & p & Hk & Hp); [lia|]. by exists (S k), p.
Qed.

Lemma rw_init_inv n : Z.of_nat n < 2 ^ 31 - 1 → rw_inv (rw_init n).
Proof.
  intros Hn. unfold rw_inv, readers_hold_wrt, rw_init. simpl.
  rewrite !rw_count_none, length_replicate by done. simpl. lia.
Qed.

Lemma rw_run_inv s schedule : rw_inv s → rw_inv (rw_run s schedule).
Proof.
  revert s. induction schedule as [|[i call] schedule IH]; intros s Hinv;
    [done|].
  simpl. apply IH. destruct (rw_step s i call) as [s'|] eqn:Hstep; [|done].
  simpl. by apply rw_step_inv with s i call.
Qed.

(** X15.  A writer is alone inside.  Whatever the schedule, while a thread
    is inside [cast_vote] (between [writer_enter] and [writer_exit]) no
    other thread is inside [cast_vote] or inside [view_results]. *)
Theorem rw_writer_excludes_all n schedule i j pc :
  Z.of_nat n < 2 ^ 31 - 1 →
  let s := rw_run (rw_init n) schedule in
  rw_threads s !! i = Some WriterInside →
  rw_threads s !! j = Some pc →
  j ≠ i →
  pc ≠ WriterInside ∧ pc ≠ ReaderInside.
Proof.
  intros Hn s Hi Hj Hne.
  assert (rw_inv s) as Hinv by (apply rw_run_inv; by apply rw_init_inv).
  destruct Hinv as (Hlen & Hwrt & Hrc & Hmutex & Hcount & Hgroup & Henter
                    & Hexit).
  pose proof (rw_count_elem holds_wrt _ _ _ Hi eq_refl) as Hwriter.
  pose proof (rw_count_range (fun pc => bool_decide (pc = ReaderEnterWrt))
                (rw_threads s)) as Hr4.
  pose proof (rw_count_range (fun pc => bool_decide (pc = ReaderExitWrt))
                (rw_threads s)) as Hr5.
  unfold readers_hold_wrt in Hgroup.
  split; intros ->.
  - pose proof (rw_count_two holds_wrt _ _ _ _ _ Hne Hj Hi eq_refl eq_refl).
    repeat case_match; lia.
  - pose proof (rw_count_elem counted_reader _ _ _ Hj eq_refl) as Hreader.
    repeat case_match; rw_tests; try lia.
    destruct (rw_count_some _ _ ltac:(eassumption)) as (k & p & Hk & Hp).
    apply bool_decide_eq_true in Hp. subst p.
    assert (k ≠ j) as Hkj by (intros ->; congruence).
    pose proof (rw_count_two counted_reader _ _ _ _ _ Hkj Hk Hj
                  eq_refl eq_refl).
    lia.
Qed.

(** X16.  The semaphores stay binary and the counter is right.  Whatever
    the schedule, [wrt] and [read_count_sem] are 0 or 1, [reader_count] is
    the number of threads between the increment in [reader_enter] and the
    decrement in [reader_exit], and while any thread is inside
    [view_results] or [cast_vote] the semaphore [wrt] is taken. *)
Theorem rw_semaphores_binary n schedule :
  Z.of_nat n < 2 ^ 31 - 1 →
  let s := rw_run (rw_init n) schedule in
  0 ≤ wrt s ≤ 1 ∧
  0 ≤ read_count_sem s ≤ 1 ∧
  reader_count s = rw_count counted_reader (rw_threads s) ∧
  ∀ j pc, rw_threads s !! j = Some pc →
          pc = ReaderInside ∨ pc = WriterInside → wrt s = 0.
Proof.
  intros Hn s.
  assert (rw_inv s) as Hinv by (apply rw_run_inv; by apply rw_init_inv).
  destruct Hinv as (Hlen & Hwrt & Hrc & Hmutex & Hcount & Hgroup & Henter
                    & Hexit).
  pose proof (rw_count_range holds_read_count (rw_threads s)) as Hr1.
  pose proof (rw_count_range holds_wrt (rw_threads s)) as Hr3.
  pose proof (rw_count_range (fun pc => bool_decide (pc = ReaderEnterWrt))
                (rw_threads s)) as Hr4.
  pose proof (rw_count_range (fun pc => bool_decide (pc = ReaderExitWrt))
                (rw_threads s)) as Hr5.
  unfold readers_hold_wrt in Hgroup.
  split; [repeat case_match; lia|]. split; [lia|]. split; [done|].
  intros j pc Hj [-> | ->].
  - pose proof (rw_count_elem counted_reader _ _ _ Hj eq_refl) as Hreader.
    repeat case_match; rw_tests; try lia.
    destruct (rw_count_some _ _ ltac:(eassumption)) as (k & p & Hk & Hp).
    apply bool_decide_eq_true in Hp. subst p.
    assert (k ≠ j) as Hkj by (intros ->; congruence).
    pose proof (rw_count_two counted_reader _ _ _ _ _ Hkj Hk Hj
                  eq_refl eq_refl).
    lia.
  - pose proof (rw_count_elem holds_wrt _ _ _ Hj eq_refl) as Hwriter.
    repeat case_match; lia.
Qed.

Lemma rw_writer_excludes_all_witness :
  let schedule := [(0%nat, CastVote); (1%nat, ViewResults); (0%nat, CastVote);
                   (1%nat, ViewResults); (1%nat, ViewResults);
                   (1%nat, ViewResults); (2%nat, ViewResults)] in
  let s := rw_run (rw_init 3) schedule in
  rw_threads s = [WriterInside; ReaderEnterWrt; ReaderEnterWait] ∧
  ReaderEnterWrt ≠ ReaderInside.
Proof.
  intros schedule s. split; [reflexivity|].
  apply (rw_writer_excludes_all 3 schedule 0 1 ReaderEnterWrt).
  - simpl. lia.
  - reflexivity.
  - reflexivity.
  - lia.
Defined.

Lemma rw_semaphores_binary_witness :
  let schedule := [(0%nat, ViewResults); (1%nat, ViewResults);
                   (0%nat, ViewResults); (0%nat, ViewResults);
                   (0%nat, ViewResults); (0%nat, ViewResults);
                   (1%nat, ViewResults); (1%nat, ViewResults);
                   (1%nat, ViewResults); (2%nat, CastVote);
                   (2%nat, CastVote)] in
  let s := rw_run (rw_init 3) schedule in
  rw_threads s = [ReaderInside; ReaderInside; WriterEnterWait] ∧
  reader_count s = 2 ∧ wrt s = 0.
Proof.
  intros schedule s. split; [reflexivity|].
  destruct (rw_semaphores_binary 3 schedule) as (_ & _ & Hcount & Htaken).
  - simpl. lia.
  - split; [exact Hcount|].
    apply (Htaken 0%nat ReaderInside); [reflexivity | by left].
Defined.
